(** * NameGenderMapper: a shallow embedding of [NameGenderMapper.py]

    The script builds, from a reference file of (name, gender, country)
    rows, a per-first-name and per-(country, first-name) count of gender
    labels ([counts_global], [counts_by_country]), turns them into the
    confidence mappings [mapping] and [mapping_country], decides a gender
    for every row of the input file, and writes an audit of ambiguous
    names.

    Modelling choices:
    - a Python [str] is its sequence of code points, [list Z];
    - a [Counter] or a [dict] is an association list in insertion order
      (CPython dicts keep insertion order; [Counter.most_common] relies on
      it to break ties);
    - the fractions [top_count / total] and the products with [0.7] are
      kept as exact rationals [Q]; the script computes them in binary64;
    - the optional [gender_guesser] detector is [option (pystr -> gg_cat)]:
      [None] when the import failed ([GG_AVAILABLE = False]). *)

From Stdlib Require Import ZArith List String Ascii Bool Lia QArith Qround Qabs.
From Stdlib Require Import Permutation Sorted.
Import ListNotations.

Open Scope Z_scope.

(* ------------------------------------------------------------------ *)
(** ** Python strings *)

Definition pystr := list Z.

(** An ASCII literal as a Python string. *)
Definition u (s : string) : pystr :=
  map (fun a => Z.of_nat (nat_of_ascii a)) (list_ascii_of_string s).

Definition str_eqb (a b : pystr) : bool :=
  if list_eq_dec Z.eq_dec a b then true else false.

(** [str.isspace] for one code point ([Py_UNICODE_ISSPACE]); it is also
    what [\s] matches in a [str] pattern of [re] and what [str.split()]
    and [str.strip()] split or strip on. *)
Definition is_space (c : Z) : bool :=
  ((9 <=? c) && (c <=? 13)) || ((28 <=? c) && (c <=? 32)) ||
  (c =? 133) || (c =? 160) || (c =? 5760) ||
  ((8192 <=? c) && (c <=? 8202)) || (c =? 8232) || (c =? 8233) ||
  (c =? 8239) || (c =? 8287) || (c =? 12288).

(** [str.lower] on one code point, for the code points up to U+00FF
    (ASCII and Latin-1, where it maps one code point to one); other code
    points are kept. *)
Definition lower_char (c : Z) : Z :=
  if ((65 <=? c) && (c <=? 90)) || ((192 <=? c) && (c <=? 214)) ||
     ((216 <=? c) && (c <=? 222))
  then c + 32 else c.

Definition py_lower (s : pystr) : pystr := map lower_char s.

(** [str.upper] on code points up to U+00FF: a-z and the Latin-1 small
    letters map to capitals, [ß] to ["SS"], [ÿ] to U+0178 and [µ] to
    U+039C; other code points are kept. *)
Definition upper_char (c : Z) : list Z :=
  if ((97 <=? c) && (c <=? 122)) || ((224 <=? c) && (c <=? 246)) ||
     ((248 <=? c) && (c <=? 254))
  then [c - 32]
  else if c =? 223 then [83; 83]
  else if c =? 255 then [376]
  else if c =? 181 then [924]
  else [c].

Definition py_upper (s : pystr) : pystr := flat_map upper_char s.

Fixpoint lstrip (s : pystr) : pystr :=
  match s with
  | c :: t => if is_space c then lstrip t else s
  | [] => []
  end.

(** [str.strip()] *)
Definition py_strip (s : pystr) : pystr := rev (lstrip (rev (lstrip s))).

(** [str.split()]: split on runs of whitespace, no empty pieces. *)
Fixpoint split_ws_aux (cur : pystr) (s : pystr) : list pystr :=
  match s with
  | [] => match cur with [] => [] | _ => [rev cur] end
  | c :: t =>
      if is_space c
      then match cur with
           | [] => split_ws_aux [] t
           | _ => rev cur :: split_ws_aux [] t
           end
      else split_ws_aux (c :: cur) t
  end.

Definition py_split (s : pystr) : list pystr := split_ws_aux [] s.

(* ------------------------------------------------------------------ *)
(** ** [get_first_name] and [normalize_gender] *)

(** [_valid_chars_re = re.compile(r"[^A-Za-zÀ-ÖØ-öø-ÿ'\-\s]")]: a code
    point is kept by [_valid_chars_re.sub('', s)] iff it is in the class. *)
Definition valid_char (c : Z) : bool :=
  ((65 <=? c) && (c <=? 90)) || ((97 <=? c) && (c <=? 122)) ||
  ((192 <=? c) && (c <=? 214)) || ((216 <=? c) && (c <=? 246)) ||
  ((248 <=? c) && (c <=? 255)) || (c =? 39) || (c =? 45) || is_space c.

Definition get_first_name (full_name : pystr) : pystr :=
  match full_name with
  | [] => []
  | _ =>
    let s := py_strip full_name in
    let s := filter valid_char s in
    let tokens := filter (fun t => negb (str_eqb t [])) (py_split s) in
    match tokens with
    | [] => []
    | t0 :: rest =>
        if Nat.eqb (List.length t0) 1 then
          match rest with
          | t1 :: _ => if Nat.ltb 1 (List.length t1) then py_lower t1 else []
          | [] => []
          end
        else py_lower t0
    end
  end.

(** Gender labels ['M'], ['F'], ['Unknown'] of the script. *)
Inductive label := M | F | Unknown.

Definition label_eqb (a b : label) : bool :=
  match a, b with
  | M, M | F, F | Unknown, Unknown => true
  | _, _ => false
  end.

Definition label_str (g : label) : pystr :=
  match g with M => u "M" | F => u "F" | Unknown => u "Unknown" end.

Definition normalize_gender (g : pystr) : label :=
  match g with
  | [] => Unknown
  | _ =>
    match py_lower (py_strip g) with
    | c :: _ => if c =? 109 then M else if c =? 102 then F else Unknown
    | [] => Unknown
    end
  end.

Example get_first_name_ex1 : get_first_name (u "  Mary-Jane O'Neil ") = u "mary-jane".
Proof. reflexivity. Qed.
Example normalize_gender_ex1 : normalize_gender (u " Female") = F.
Proof. reflexivity. Qed.

(* ------------------------------------------------------------------ *)
(** ** Insertion-ordered dicts and [Counter] *)

(** [d[k] = f(d.get(k))]: an existing key keeps its place, a new key goes
    to the end. *)
Fixpoint od_update {K V} (eqb : K -> K -> bool) (k : K) (f : option V -> V)
    (d : list (K * V)) : list (K * V) :=
  match d with
  | [] => [(k, f None)]
  | (k', v) :: t => if eqb k k' then (k', f (Some v)) :: t
                    else (k', v) :: od_update eqb k f t
  end.

Fixpoint od_lookup {K V} (eqb : K -> K -> bool) (k : K) (d : list (K * V))
    : option V :=
  match d with
  | [] => None
  | (k', v) :: t => if eqb k k' then Some v else od_lookup eqb k t
  end.

Definition counter := list (label * nat).

(** [ctr[g] += 1] *)
Definition counter_incr (g : label) (ctr : counter) : counter :=
  od_update label_eqb g (fun o => match o with Some n => S n | None => 1%nat end) ctr.

(** [sum(ctr.values())] *)
Definition counter_total (ctr : counter) : nat := fold_right Nat.add 0%nat (map snd ctr).

(** [ctr.most_common(1)[0]]: CPython computes it with [max(items, key=count)],
    which returns the first item of maximal count in insertion order. *)
Fixpoint max_first (best : label * nat) (l : counter) : label * nat :=
  match l with
  | [] => best
  | x :: t => max_first (if Nat.ltb (snd best) (snd x) then x else best) t
  end.

Definition most_common1 (ctr : counter) : option (label * nat) :=
  match ctr with
  | [] => None
  | x :: t => Some (max_first x t)
  end.

(** [ctr.most_common()]: [sorted(items, key=count, reverse=True)], a stable
    sort, so items of equal count keep their insertion order. *)
Fixpoint insert_desc (x : label * nat) (l : counter) : counter :=
  match l with
  | [] => [x]
  | y :: t => if Nat.leb (snd x) (snd y) then y :: insert_desc x t else x :: y :: t
  end.

Definition most_common (ctr : counter) : counter :=
  fold_left (fun acc x => insert_desc x acc) ctr [].

(* ------------------------------------------------------------------ *)
(** ** Reference aggregation (lines 78-119) *)

Definition nth_or_empty (row : list pystr) (i : nat) : pystr := nth i row [].

Fixpoint index_of (x : pystr) (l : list pystr) : option nat :=
  match l with
  | [] => None
  | y :: t => if str_eqb x y then Some 0%nat
              else option_map S (index_of x t)
  end.

Record colplan := { name_idx : nat; gender_idx : nat; country_idx : option nat }.

Definition default_plan : colplan := {| name_idx := 0; gender_idx := 1; country_idx := None |}.

Definition global_counts := list (pystr * counter).
Definition country_counts := list (pystr * list (pystr * counter)).

Definition incr_global (fname : pystr) (g : label) (cg : global_counts) : global_counts :=
  od_update str_eqb fname (fun o => counter_incr g (match o with Some c => c | None => [] end)) cg.

Definition incr_country (country fname : pystr) (g : label) (cc : country_counts)
    : country_counts :=
  od_update str_eqb country
    (fun o => incr_global fname g (match o with Some d => d | None => [] end)) cc.

(** Header detection on the first row (lines 85-106). *)
Definition header_plan (lower : list pystr) : colplan :=
  let ni := match index_of (u "name") lower with Some i => i | None => 0%nat end in
  let gi := match index_of (u "gender") lower with
            | Some i => i
            | None => match index_of (u "sex") lower with Some i => i | None => 1%nat end
            end in
  {| name_idx := ni; gender_idx := gi; country_idx := index_of (u "country") lower |}.

(** What one reference row contributes (lines 108-119): nothing ([None]:
    an empty row or an empty first name), or one increment of
    [counts_global[fname][gnorm]] and, when [country] is not empty, of
    [counts_by_country[country][fname][gnorm]]. *)
Definition obs := (pystr * label * pystr)%type.

Definition ref_row_obs (p : colplan) (row : list pystr) : option obs :=
  match row with
  | [] => None
  | _ =>
    let name := nth_or_empty row (name_idx p) in
    let gender := nth_or_empty row (gender_idx p) in
    let fname := get_first_name name in
    match fname with
    | [] => None
    | _ =>
      let gnorm := normalize_gender gender in
      let country := match country_idx p with
                     | None => []
                     | Some ci => py_upper (py_strip (nth_or_empty row ci))
                     end in
      Some (fname, gnorm, country)
    end
  end.

(** The first row (lines 85-106): the column plan it fixes, and its own
    contribution when it is read as data (to [counts_global] only). *)
Definition first_row_plan (first_row : list pystr) : colplan * list obs :=
  match first_row with
  | [] => (default_plan, [])
  | _ =>
    let lower := map (fun c => py_lower (py_strip c)) first_row in
    if existsb (str_eqb (u "name")) lower
    then (header_plan lower, [])
    else
      let name := nth_or_empty first_row 0 in
      let gender := nth_or_empty first_row 1 in
      let fname := get_first_name name in
      match fname with
      | [] => (default_plan, [])
      | _ => (default_plan, [(fname, normalize_gender gender, [])])
      end
  end.

(** The increments made while reading the reference file, in order. *)
Definition ref_observations (rows : list (list pystr)) : list obs :=
  match rows with
  | [] => []
  | first_row :: rest =>
    let '(p, o0) := first_row_plan first_row in
    o0 ++ flat_map (fun row => match ref_row_obs p row with
                                | Some o => [o] | None => [] end) rest
  end.

Definition count_obs (st : global_counts * country_counts) (o : obs)
    : global_counts * country_counts :=
  let '(cg, cc) := st in
  let '(fname, gnorm, country) := o in
  (incr_global fname gnorm cg,
   match country with
   | [] => cc
   | _ => incr_country country fname gnorm cc
   end).

(** [counts_global] and [counts_by_country] after reading the reference
    rows. *)
Definition aggregate (rows : list (list pystr)) : global_counts * country_counts :=
  fold_left count_obs (ref_observations rows) ([], []).

(* ------------------------------------------------------------------ *)
(** ** Confidence mappings (lines 121-145) *)

Definition CONF_THRESHOLD : Q := 65 # 100.
Definition MIN_COUNT_FOR_CONFIDENCE : nat := 5.

Definition Qltb (a b : Q) : bool := negb (Qle_bool b a).

Definition nat2Q (n : nat) : Q := inject_Z (Z.of_nat n).

(** A [ConfidenceEntry]: (top gender, confidence, total count). *)
Definition entry := (label * Q * nat)%type.

(** The body of both loops: [None] is the [continue] on [total == 0]. *)
Definition entry_of (ctr : counter) : option entry :=
  let total := counter_total ctr in
  if Nat.eqb total 0 then None else
  match most_common1 ctr with
  | None => None
  | Some (top_gender, top_count) =>
    let conf := (nat2Q top_count / nat2Q total)%Q in
    let conf := if Nat.ltb total MIN_COUNT_FOR_CONFIDENCE && Qltb conf 1
                then (conf * (7 # 10))%Q else conf in
    Some (top_gender, conf, total)
  end.

Definition global_mapping := list (pystr * entry).
Definition scoped_mapping := list ((pystr * pystr) * entry).

Definition pair_eqb (a b : pystr * pystr) : bool :=
  str_eqb (fst a) (fst b) && str_eqb (snd a) (snd b).

(** [for fname, ctr in counts_global.items(): ... mapping[fname] = ...] *)
Definition build_mapping (cg : global_counts) : global_mapping :=
  fold_left (fun m '(fname, ctr) =>
               match entry_of ctr with
               | None => m
               | Some e => od_update str_eqb fname (fun _ => e) m
               end) cg [].

(** [for country, d in counts_by_country.items(): for fname, ctr in d.items(): ...] *)
Definition build_mapping_country (cc : country_counts) : scoped_mapping :=
  fold_left (fun m '(country, d) =>
    fold_left (fun m '(fname, ctr) =>
                 match entry_of ctr with
                 | None => m
                 | Some e => od_update pair_eqb (country, fname) (fun _ => e) m
                 end) d m) cc [].

Definition mappings (rows : list (list pystr)) : global_mapping * scoped_mapping :=
  let '(cg, cc) := aggregate rows in (build_mapping cg, build_mapping_country cc).

(* ------------------------------------------------------------------ *)
(** ** The fallback classifier (lines 12-19, 62-72) *)

(** The categories returned by [Detector.get_gender]. *)
Inductive gg_cat := male | mostly_male | female | mostly_female | andy | unknown_cat.

(** [None] when [gender_guesser] could not be imported. *)
Definition detector := option (pystr -> gg_cat).

Definition gg_guess (gg : detector) (first : pystr) : label * Q :=
  match gg, first with
  | None, _ | _, [] => (Unknown, 0%Q)
  | Some d, _ =>
    match d first with
    | male => (M, 1%Q)
    | mostly_male => (M, 85 # 100)
    | female => (F, 1%Q)
    | mostly_female => (F, 85 # 100)
    | andy => (Unknown, 1 # 2)
    | unknown_cat => (Unknown, 0%Q)
    end
  end.

(* ------------------------------------------------------------------ *)
(** ** The decision loop (lines 171-232) *)

Inductive source := country_mapped | mapped | gender_guesser | unknown.

Definition source_str (s : source) : pystr :=
  match s with
  | country_mapped => u "country-mapped"
  | mapped => u "mapped"
  | gender_guesser => u "gender-guesser"
  | unknown => u "unknown"
  end.

(** [(chosen_gender, chosen_conf, source)] *)
Definition decision := (label * Q * source)%type.

Definition undecided : decision := (Unknown, 0%Q, unknown).

Definition is_unknown (s : decision) : bool :=
  match s with (g, _, _) => label_eqb g Unknown end.

(** Lines 185-200. The [cand_g, cand_conf] assignments of this block are
    never read: [cand_conf] is reassigned on line 215 before its only use. *)
Definition step_mapping (m : global_mapping) (mc : scoped_mapping)
    (country fname : pystr) (s : decision) : decision :=
  match fname with
  | [] => s
  | _ =>
    match od_lookup pair_eqb (country, fname) mc with
    | Some (g, conf, _) =>
        if Qle_bool CONF_THRESHOLD conf then (g, conf, country_mapped) else s
    | None =>
      match od_lookup str_eqb fname m with
      | Some (g, conf, _) =>
          if Qle_bool CONF_THRESHOLD conf then (g, conf, mapped) else s
      | None => s
      end
    end
  end.

(** Lines 202-225. *)
Definition step_gg (m : global_mapping) (gg : detector) (fname : pystr)
    (s : decision) : decision :=
  if is_unknown s && negb (str_eqb fname []) then
    let use_gg := match od_lookup str_eqb fname m with
                  | None => true
                  | Some (_, c, _) => Qltb c CONF_THRESHOLD
                  end in
    if use_gg && (match gg with Some _ => true | None => false end) then
      let '(gg_g, gg_conf) := gg_guess gg fname in
      let cand_conf := match od_lookup str_eqb fname m with
                       | Some (_, c, _) => c
                       | None => 0%Q
                       end in
      if Qle_bool (85 # 100) gg_conf || Qltb cand_conf gg_conf then
        (gg_g, gg_conf, gender_guesser)
      else match od_lookup str_eqb fname m with
           | Some (g, _, _) =>
               if Qltb gg_conf cand_conf then (g, cand_conf, mapped) else s
           | None => s
           end
    else
      match od_lookup str_eqb fname m with
      | Some (g, c, _) => (g, c, mapped)
      | None => s
      end
  else s.

(** Lines 227-229. *)
Definition step_final (m : global_mapping) (fname : pystr) (s : decision) : decision :=
  if is_unknown s && negb (str_eqb fname []) then
    match od_lookup str_eqb fname m with
    | Some (g, c, _) => (g, c, mapped)
    | None => s
    end
  else s.

(** The row's [name] and [country] (lines 178-179). *)
Definition row_name (row : list pystr) : pystr := nth_or_empty row 0.

Definition row_country (row : list pystr) : pystr :=
  match row with
  | _ :: c :: _ => py_upper (py_strip c)
  | _ => []
  end.

Definition decide (m : global_mapping) (mc : scoped_mapping) (gg : detector)
    (row : list pystr) : decision :=
  let fname := get_first_name (row_name row) in
  let country := row_country row in
  step_final m fname
    (step_gg m gg fname
       (step_mapping m mc country fname undecided)).

(** ["{:.3f}".format(conf)] for the exact value [conf]: rounding half to
    even at the third decimal. *)
Fixpoint uint_digits (d : Decimal.uint) : pystr :=
  match d with
  | Decimal.Nil => []
  | Decimal.D0 t => 48 :: uint_digits t | Decimal.D1 t => 49 :: uint_digits t
  | Decimal.D2 t => 50 :: uint_digits t | Decimal.D3 t => 51 :: uint_digits t
  | Decimal.D4 t => 52 :: uint_digits t | Decimal.D5 t => 53 :: uint_digits t
  | Decimal.D6 t => 54 :: uint_digits t | Decimal.D7 t => 55 :: uint_digits t
  | Decimal.D8 t => 56 :: uint_digits t | Decimal.D9 t => 57 :: uint_digits t
  end.

Definition z_digits (n : Z) : pystr := uint_digits (N.to_uint (Z.to_N n)).

Definition round_half_even (q : Q) : Z :=
  let n := Qnum q in let d := Zpos (Qden q) in
  let fl := n / d in let r := n mod d in
  if 2 * r <? d then fl
  else if d <? 2 * r then fl + 1
  else if Z.even fl then fl else fl + 1.

Definition format3 (q : Q) : pystr :=
  let n := round_half_even (Qabs q * 1000) in
  let sign := if Qltb q 0 then [45] else [] in
  let frac := z_digits (n mod 1000) in
  let pad := repeat 48 (3 - List.length frac) in
  sign ++ z_digits (n / 1000) ++ [46] ++ pad ++ frac.

Definition output_row (m : global_mapping) (mc : scoped_mapping) (gg : detector)
    (row : list pystr) : list pystr :=
  let '(g, c, src) := decide m mc gg row in
  row ++ [label_str g; format3 c; source_str src].

(** Lines 171-176: empty rows and repeated header rows are skipped. *)
Definition is_data_row (row : list pystr) : bool :=
  match row with
  | [] => false
  | c :: _ => negb (str_eqb (py_lower (py_strip c)) (u "name"))
  end.

Definition default_header : list pystr :=
  map u ["Name"; "Country"; "Address"; "City"; "State"; "Zip"; "Phone Number";
         "Gender"; "GenderConfidence"; "GenderSource"]%string.

Definition extra_header : list pystr := map u ["Gender"; "GenderConfidence"; "GenderSource"]%string.

(** The rows written to [OUTPUT_FILE] (lines 165-232). *)
Definition process_input (m : global_mapping) (mc : scoped_mapping) (gg : detector)
    (rows : list (list pystr)) : list (list pystr) :=
  let body r := map (output_row m mc gg) (filter is_data_row r) in
  match rows with
  | [] => default_header :: []
  | [] :: rest => default_header :: body rest
  | header :: rest => (header ++ extra_header) :: body rest
  end.

(* ------------------------------------------------------------------ *)
(** ** The audit (lines 244-257) *)

(** [(first_name, top_gender, top_count, second_count, total_count, confidence)] *)
Definition audit_entry := (pystr * label * nat * nat * nat * Q)%type.

Definition audit_row (fname : pystr) (ctr : counter) : option audit_entry :=
  let total := counter_total ctr in
  if Nat.eqb total 0 then None else
  match most_common ctr with
  | [] => None
  | (top_gender, top_count) :: more =>
    let second_count := match more with (_, c) :: _ => c | [] => 0%nat end in
    let conf := (nat2Q top_count / nat2Q total)%Q in
    if Nat.ltb total 50 || Qltb conf (7 # 10) ||
       (Nat.ltb 1 (List.length (most_common ctr)) &&
        Nat.ltb (top_count - second_count) 3)
    then Some (fname, top_gender, top_count, second_count, total, conf)
    else None
  end.

Definition audit_first_name (e : audit_entry) : pystr :=
  let '(f, _, _, _, _, _) := e in f.

Definition audit (cg : global_counts) : list audit_entry :=
  flat_map (fun '(fname, ctr) =>
              match audit_row fname ctr with Some e => [e] | None => [] end) cg.

(* ------------------------------------------------------------------ *)
(** ** Notions used to state the claims *)

Definition label_eq_dec (a b : label) : {a = b} + {a <> b}.
Proof. decide equality. Defined.

(** The [Counter] after [ctr[g] += 1] for the labels [ls], in order. *)
Definition counter_of (ls : list label) : counter :=
  fold_left (fun c g => counter_incr g c) ls [].

(** The labels counted for [fname], in reading order. *)
Definition labels_for (fname : pystr) (os : list obs) : list label :=
  map (fun '(_, g, _) => g) (filter (fun '(f, _, _) => str_eqb f fname) os).

(** The first observed label whose count is maximal among [ls]. *)
Definition first_max (ls : list label) : option label :=
  let cnt := count_occ label_eq_dec ls in
  find (fun x => Nat.eqb (cnt x) (list_max (map cnt ls))) ls.

(* ------------------------------------------------------------------ *)
(** ** Concrete datasets *)

(** The reference rows of the end-to-end scenario (no header row, so the
    first row is read as data). *)
Definition ref_alex : list (list pystr) :=
  [[u "Alex"; u "M"]; [u "Alex"; u "F"]; [u "Alex"; u "F"]].

(** Two reference rows tied one to one, the female row read first. *)
Definition ref_tie : list (list pystr) :=
  [[u "Alex"; u "F"]; [u "Alex"; u "M"]].

(** Reference rows with a header: for "alex" in "US" seven rows of an
    unrecognised gender and three male rows, and sixty more male rows
    without a country. *)
Definition ref_c2 : list (list pystr) :=
  [u "name"; u "gender"; u "country"] ::
  repeat [u "Alex"; u "x"; u "US"] 7 ++ repeat [u "Alex"; u "M"; u "US"] 3 ++
  repeat [u "Alex"; u "M"; u ""] 60.

(** Reference rows with a header: one male and one female "alex" in "US"
    and eight female rows without a country. *)
Definition ref_c3 : list (list pystr) :=
  [u "name"; u "gender"; u "country"] ::
  [u "Alex"; u "m"; u "US"] :: [u "Alex"; u "f"; u "US"] ::
  repeat [u "Alex"; u "f"; u ""] 8.

(** Reference rows with a header: one male and one female "alex" in "US",
    then five female and three male rows without a country. *)
Definition ref_c3b : list (list pystr) :=
  [u "name"; u "gender"; u "country"] ::
  [u "Alex"; u "m"; u "US"] :: [u "Alex"; u "f"; u "US"] ::
  repeat [u "Alex"; u "f"; u ""] 5 ++ repeat [u "Alex"; u "m"; u ""] 3.

(** A detector that answers "unknown" for every name. *)
Definition gg_unknown : detector := Some (fun _ => unknown_cat).

(** The candidate [(cand_g, cand_conf)] that lines 185-200 store: the
    low-confidence country-scoped entry if there is one, else the
    low-confidence global entry. *)
Definition stored_candidate (m : global_mapping) (mc : scoped_mapping)
    (country fname : pystr) : option (label * Q) :=
  match fname with
  | [] => None
  | _ =>
    match od_lookup pair_eqb (country, fname) mc with
    | Some (g, conf, _) => if Qle_bool CONF_THRESHOLD conf then None else Some (g, conf)
    | None =>
      match od_lookup str_eqb fname m with
      | Some (g, conf, _) => if Qle_bool CONF_THRESHOLD conf then None else Some (g, conf)
      | None => None
      end
    end
  end.

(** Step 4 of the spec's cascade, in its own words: use the classifier's
    answer if its confidence is at least 0.85 or exceeds the remembered
    candidate's (0 without one); otherwise take the candidate as "mapped"
    if its confidence exceeds the classifier's. *)
Definition spec_step4 (cand : option (label * Q)) (ans : label * Q)
    (s : decision) : decision :=
  let '(gg_g, gg_conf) := ans in
  let cand_conf := match cand with Some (_, c) => c | None => 0%Q end in
  if Qle_bool (85 # 100) gg_conf || Qltb cand_conf gg_conf then
    (gg_g, gg_conf, gender_guesser)
  else match cand with
       | Some (g, c) => if Qltb gg_conf c then (g, c, mapped) else s
       | None => s
       end.

(** A count table with "a" at {Male:1, Female:1} and "b" at
    {Male:1000, Female:2}. *)
Definition counts_c7 : global_counts :=
  [(u "a", [(M, 1%nat); (F, 1%nat)]); (u "b", [(M, 1000%nat); (F, 2%nat)])].

(** Every scoped counter is dominated by the global counter of its name. *)
Definition scoped_le_global (st : global_counts * country_counts) : Prop :=
  forall c d f ctr, In (c, d) (snd st) -> In (f, ctr) d ->
  exists ctr_g, od_lookup str_eqb f (fst st) = Some ctr_g /\
                (counter_total ctr <= counter_total ctr_g)%nat.

(** Descending order on counts. *)
Definition desc (a b : nat) : Prop := (b <= a)%nat.

(** A detector that answers "male" for every name. *)
Definition gg_male : detector := Some (fun _ => male).

(* ------------------------------------------------------------------ *)
(** ** Delimiter detection (lines 34-38) *)

(** [open(path, 'r')] reads in universal-newline mode: ["\r\n"] and a
    lone ["\r"] are both read as ["\n"]. *)
Fixpoint universal_newlines (s : pystr) : pystr :=
  match s with
  | [] => []
  | c :: t =>
    if c =? 13 then
      match t with
      | d :: t' => if d =? 10 then 10 :: universal_newlines t' else 10 :: universal_newlines t
      | [] => [10]
      end
    else c :: universal_newlines t
  end.

(** [max(items, key=key)]: the first item of maximal key. *)
Fixpoint max_key {A} (key : A -> nat) (best : A) (l : list A) : A :=
  match l with
  | [] => best
  | x :: t => max_key key (if Nat.ltb (key best) (key x) then x else best) t
  end.

(** [candidates = [',','\t',';','|']] *)
Definition delim_candidates : list Z := [44; 9; 59; 124].

(** [sample_size=8192] *)
Definition sample_size : nat := (2 ^ 13)%nat.

(** [detect_delimiter(path)] on the decoded text of the file:
    [f.read(sample_size)] reads that many characters after newline
    translation, and [sample.count(c)] for a one-character [c] is its
    number of occurrences. *)
Definition detect_delimiter (text : pystr) : Z :=
  let sample := firstn sample_size (universal_newlines text) in
  max_key (fun c => count_occ Z.eq_dec sample c) 44 [9; 59; 124].

(* ------------------------------------------------------------------ *)
(** ** Progress counters of the decision loop (lines 156-157, 233-240) *)

Definition source_eqb (a b : source) : bool :=
  match a, b with
  | country_mapped, country_mapped | mapped, mapped
  | gender_guesser, gender_guesser | unknown, unknown => true
  | _, _ => false
  end.

(** [written] and [stats] after the decision loop: one increment of
    [written] and of [stats[source]] per row written. *)
Definition run_stats (m : global_mapping) (mc : scoped_mapping) (gg : detector)
    (rows : list (list pystr)) : nat * list (source * nat) :=
  fold_left (fun (st : nat * list (source * nat)) row =>
               let '(written, stats) := st in
               let '(_, _, src) := decide m mc gg row in
               (S written,
                od_update source_eqb src
                  (fun o => match o with Some n => S n | None => 1%nat end) stats))
            (filter is_data_row (tl rows)) (0%nat, []).

(* ------------------------------------------------------------------ *)
(** ** Notions used to state further properties *)

(** The choice among the tokens made by [get_first_name] (lines 52-60). *)
Definition first_of_tokens (tokens : list pystr) : pystr :=
  match tokens with
  | [] => []
  | t0 :: rest =>
      if Nat.eqb (List.length t0) 1 then
        match rest with
        | t1 :: _ => if Nat.ltb 1 (List.length t1) then py_lower t1 else []
        | [] => []
        end
      else py_lower t0
  end.

(** [[t for t in s.split() if t]] *)
Definition nonempty_tokens (s : pystr) : list pystr :=
  filter (fun t => negb (str_eqb t [])) (py_split s).

(** A character that can occur in a first name returned by
    [get_first_name]. *)
Definition first_name_char (c : Z) : Prop :=
  valid_char c = true /\ is_space c = false /\ lower_char c = c.

Definition all_space (ws : pystr) : Prop := Forall (fun c => is_space c = true) ws.

(** The update function of [d[k] += 1] on a [Counter]. *)
Definition incr_opt (o : option nat) : nat := match o with Some n => S n | None => 1%nat end.

(** The confidence of a decision lies in [0, 1]. *)
Definition unit_conf (s : decision) : Prop := let '(_, c, _) := s in (0 <= c <= 1)%Q.

(** [counts_by_country[country][fname]] when both keys are present. *)
Definition cc_lookup (country fname : pystr) (cc : country_counts) : option counter :=
  match od_lookup str_eqb country cc with
  | Some d => od_lookup str_eqb fname d
  | None => None
  end.

(** The labels counted for [fname] under [country], in reading order. *)
Definition labels_for_country (country fname : pystr) (os : list obs) : list label :=
  map (fun '(_, g, _) => g)
      (filter (fun '(f, _, c) => str_eqb f fname && str_eqb c country) os).

(** Both levels of [counts_by_country] have distinct keys. *)
Definition cc_wf (cc : country_counts) : Prop :=
  NoDup (map fst cc) /\ forall c d, In (c, d) cc -> NoDup (map fst d).

(* ================================================================== *)
(** * Claims *)

(** C6: [get_first_name "K N Johnson" = ""] (the second token is an
    initial too), [get_first_name "K Johnson" = "johnson"] and
    [get_first_name "Mary Ann Smith" = "mary"]. *)
Theorem C6_get_first_name_initials :
  get_first_name (u "K N Johnson") = [] /\
  get_first_name (u "K Johnson") = u "johnson" /\
  get_first_name (u "Mary Ann Smith") = u "mary".
Proof. split; [|split]; reflexivity. Qed.

(** C5: the count table {Male:8, Female:2} (total 10) gives confidence
    exactly 0.8, unpenalised; {Male:3, Female:1} (total 4 < 5, share
    0.75 < 1) gives the penalised 0.75 * 0.7 = 0.525. *)
Theorem C5_low_sample_penalty :
  (exists c, entry_of [(M, 8%nat); (F, 2%nat)] = Some (M, c, 10%nat) /\
             (c == 8 # 10)%Q) /\
  (exists c, entry_of [(M, 3%nat); (F, 1%nat)] = Some (M, c, 4%nat) /\
             (c == (3 # 4) * (7 # 10))%Q /\ (c == 525 # 1000)%Q).
Proof.
  split.
  - eexists; split; [reflexivity | reflexivity].
  - eexists; split; [reflexivity | split; reflexivity].
Qed.

(** C1 (counterexample): the global entry for "alex" built from
    [ref_alex] does not have confidence 0.667, not even up to the three
    decimals the script prints: the total 3 is below
    [MIN_COUNT_FOR_CONFIDENCE], so the share 2/3 is multiplied by 0.7. *)
Lemma C1_entry_not_0667 :
  ~ (exists c, od_lookup str_eqb (u "alex") (fst (mappings ref_alex)) = Some (F, c, 3%nat) /\
               format3 c = u "0.667") /\
  ~ (exists c, (let '(m, mc) := mappings ref_alex in
                decide m mc None [u "Alex Smith"; u "US"]) = (F, c, mapped) /\
               format3 c = u "0.667").
Proof.
  split; intros [c [H1 H2]]; vm_compute in H1; injection H1; intros; subst;
    vm_compute in H2; discriminate.
Qed.

(** C1 (as the code does it): [ref_alex] gives the global entry
    (Female, 2/3 * 0.7 = 7/15, 3), printed "0.467"; the audit lists
    "alex" (total 3 < 50, gap 2 - 1 < 3) with the unpenalised confidence
    2/3; with no country data and no classifier the row
    ("Alex Smith", "US") is decided (Female, 7/15, "mapped"). *)
Theorem C1_end_to_end :
  (exists c, od_lookup str_eqb (u "alex") (fst (mappings ref_alex)) = Some (F, c, 3%nat) /\
             (c == 7 # 15)%Q /\ format3 c = u "0.467") /\
  snd (mappings ref_alex) = [] /\
  audit (fst (aggregate ref_alex)) = [(u "alex", F, 2%nat, 1%nat, 3%nat, 2 # 3)%Q] /\
  (exists c, (let '(m, mc) := mappings ref_alex in
              decide m mc None [u "Alex Smith"; u "US"]) = (F, c, mapped) /\
             (c == 7 # 15)%Q).
Proof.
  split; [|split; [|split]].
  - eexists; split; [reflexivity | split; reflexivity].
  - reflexivity.
  - reflexivity.
  - eexists; split; [reflexivity | reflexivity].
Qed.

(** C4 (counterexample): with the rows read Female first, the tied
    counts {Female:1, Male:1} give the top label Female, not Male. *)
Lemma C4_tie_not_enum_order :
  od_lookup str_eqb (u "alex") (fst (aggregate ref_tie)) = Some [(F, 1%nat); (M, 1%nat)] /\
  ~ (exists c t, od_lookup str_eqb (u "alex") (fst (mappings ref_tie)) = Some (M, c, t)).
Proof.
  split; [reflexivity|].
  intros [c [t H]]; vm_compute in H; discriminate.
Qed.

(* ------------------------------------------------------------------ *)
(** ** Lemmas on dicts and counters *)

Lemma str_eqb_spec (a b : pystr) : str_eqb a b = true <-> a = b.
Proof. unfold str_eqb; destruct (list_eq_dec Z.eq_dec a b); split; congruence. Qed.

Lemma label_eqb_spec (a b : label) : label_eqb a b = true <-> a = b.
Proof. destruct a, b; simpl; split; congruence. Qed.

Section OrderedDict.
Context {K V : Type} (eqb : K -> K -> bool).
Hypothesis eqb_spec : forall a b, eqb a b = true <-> a = b.

Lemma eqb_refl k : eqb k k = true.
Proof. apply eqb_spec; reflexivity. Qed.

Lemma od_lookup_update k k' (f : option V -> V) d :
  od_lookup eqb k (od_update eqb k' f d) =
  if eqb k k' then Some (f (od_lookup eqb k' d)) else od_lookup eqb k d.
Proof.
  induction d as [|[k0 v] t IH]; simpl.
  - destruct (eqb k k'); reflexivity.
  - destruct (eqb k' k0) eqn:E1.
    + apply eqb_spec in E1; subst k0; simpl.
      destruct (eqb k k'); [|reflexivity].
      destruct (eqb k' k') eqn:E3; [reflexivity|].
      rewrite eqb_refl in E3; discriminate.
    + simpl. rewrite IH.
      destruct (eqb k k') eqn:E2; [|reflexivity].
      apply eqb_spec in E2; subst k'. rewrite E1; reflexivity.
Qed.

Lemma od_keys_update k (f : option V -> V) d :
  map fst (od_update eqb k f d) =
  if existsb (eqb k) (map fst d) then map fst d else map fst d ++ [k].
Proof.
  induction d as [|[k0 v] t IH]; simpl; [reflexivity|].
  destruct (eqb k k0); simpl; [reflexivity|].
  rewrite IH; destruct (existsb (eqb k) (map fst t)); reflexivity.
Qed.

Lemma od_update_nodup k (f : option V -> V) d :
  NoDup (map fst d) -> NoDup (map fst (od_update eqb k f d)).
Proof.
  intros Hd; rewrite od_keys_update.
  destruct (existsb (eqb k) (map fst d)) eqn:E; [exact Hd|].
  apply (Permutation_NoDup (Permutation_cons_append (map fst d) k)).
  constructor; [|exact Hd].
  intros Hin. assert (existsb (eqb k) (map fst d) = true) as E'.
  { apply existsb_exists; exists k; split; [exact Hin | apply eqb_refl]. }
  congruence.
Qed.

Lemma od_lookup_in k (v : V) d :
  NoDup (map fst d) -> In (k, v) d -> od_lookup eqb k d = Some v.
Proof.
  induction d as [|[k0 v0] t IH]; simpl; [tauto|].
  intros Hnd [Heq | Hin].
  - injection Heq; intros; subst; rewrite eqb_refl; reflexivity.
  - inversion Hnd as [|? ? Hnot Hnd']; subst.
    destruct (eqb k k0) eqn:E.
    + apply eqb_spec in E; subst k0.
      exfalso; apply Hnot; apply (in_map fst _ _ Hin).
    + apply IH; assumption.
Qed.

Lemma od_lookup_some_in k (v : V) d :
  od_lookup eqb k d = Some v -> In (k, v) d.
Proof.
  induction d as [|[k0 v0] t IH]; simpl; [discriminate|].
  destruct (eqb k k0) eqn:E.
  - intros H; injection H; intros; subst.
    apply eqb_spec in E; subst; left; reflexivity.
  - intros H; right; apply IH, H.
Qed.

Lemma od_lookup_none_notin k (d : list (K * V)) :
  od_lookup eqb k d = None -> ~ In k (map fst d).
Proof.
  induction d as [|[k0 v0] t IH]; simpl; [tauto|].
  destruct (eqb k k0) eqn:E; [discriminate|].
  intros H [Heq | Hin].
  - subst; rewrite eqb_refl in E; discriminate.
  - exact (IH H Hin).
Qed.
End OrderedDict.

Lemma find_app {A} (P : A -> bool) l1 l2 :
  find P (l1 ++ l2) = match find P l1 with Some x => Some x | None => find P l2 end.
Proof. induction l1 as [|x t IH]; simpl; [reflexivity|]. destruct (P x); auto. Qed.

Lemma find_map {A B} (P : B -> bool) (f : A -> B) l :
  find P (map f l) = option_map f (find (fun x => P (f x)) l).
Proof. induction l as [|x t IH]; simpl; [reflexivity|]. destruct (P (f x)); auto. Qed.

Lemma find_ext_in {A} (P Q : A -> bool) l :
  (forall x, In x l -> P x = Q x) -> find P l = find Q l.
Proof.
  induction l as [|x t IH]; simpl; intros H; [reflexivity|].
  rewrite (H x (or_introl eq_refl)).
  destruct (Q x); [reflexivity|]. apply IH; intros; apply H; right; assumption.
Qed.

Lemma counter_of_snoc ls g : counter_of (ls ++ [g]) = counter_incr g (counter_of ls).
Proof. unfold counter_of; rewrite fold_left_app; reflexivity. Qed.

Lemma counter_of_lookup ls x :
  od_lookup label_eqb x (counter_of ls) =
  if Nat.eqb (count_occ label_eq_dec ls x) 0 then None
  else Some (count_occ label_eq_dec ls x).
Proof.
  revert x; induction ls as [|g ls IH] using rev_ind; intros x; [reflexivity|].
  rewrite counter_of_snoc; unfold counter_incr.
  rewrite (od_lookup_update label_eqb label_eqb_spec), count_occ_app; simpl.
  destruct (label_eqb x g) eqn:E.
  - apply label_eqb_spec in E; subst g. rewrite IH.
    destruct (label_eq_dec x x) as [_|C]; [|congruence].
    destruct (count_occ label_eq_dec ls x) as [|n]; [reflexivity|].
    simpl; rewrite Nat.add_1_r; reflexivity.
  - destruct (label_eq_dec g x) as [C|_].
    + subst; rewrite (eqb_refl label_eqb label_eqb_spec) in E; discriminate.
    + rewrite Nat.add_0_r; apply IH.
Qed.

Lemma counter_of_nodup ls : NoDup (map fst (counter_of ls)).
Proof.
  induction ls as [|g ls IH] using rev_ind; [constructor|].
  rewrite counter_of_snoc; apply (od_update_nodup label_eqb label_eqb_spec), IH.
Qed.

Lemma counter_of_in ls x n :
  In (x, n) (counter_of ls) -> n = count_occ label_eq_dec ls x /\ In x ls.
Proof.
  intros Hin.
  pose proof (od_lookup_in label_eqb label_eqb_spec x n _ (counter_of_nodup ls) Hin) as H.
  rewrite counter_of_lookup in H.
  destruct (Nat.eqb (count_occ label_eq_dec ls x) 0) eqn:E; [discriminate|].
  injection H; intros; subst; split; [reflexivity|].
  apply (count_occ_In label_eq_dec); apply Nat.eqb_neq in E; lia.
Qed.

Lemma counter_of_key_in ls x : In x (map fst (counter_of ls)) -> In x ls.
Proof.
  intros Hin; apply in_map_iff in Hin; destruct Hin as [[x' n] [Hx Hin]].
  simpl in Hx; subst x'; exact (proj2 (counter_of_in ls x n Hin)).
Qed.

(** The keys of [counter_of ls] are the labels of [ls] in the order of
    their first observation. *)
Lemma find_counter_keys (P : label -> bool) ls :
  find P ls = find P (map fst (counter_of ls)).
Proof.
  induction ls as [|g ls IH] using rev_ind; [reflexivity|].
  rewrite counter_of_snoc; unfold counter_incr.
  rewrite (od_keys_update label_eqb), find_app.
  destruct (existsb (label_eqb g) (map fst (counter_of ls))) eqn:E.
  - rewrite <- IH. destruct (find P ls) eqn:Ef; [reflexivity|].
    simpl. apply existsb_exists in E; destruct E as [g' [Hin Hg]].
    apply label_eqb_spec in Hg; subst g'.
    rewrite (find_none P ls Ef g (counter_of_key_in ls g Hin)); reflexivity.
  - rewrite find_app, <- IH; reflexivity.
Qed.

(** [max_first] returns a maximal item, the first one of its count. *)
Lemma max_first_spec (l : counter) (best : label * nat) :
  let r := max_first best l in
  In r (best :: l) /\ (forall y, In y (best :: l) -> (snd y <= snd r)%nat) /\
  find (fun y => Nat.eqb (snd y) (snd r)) (best :: l) = Some r.
Proof.
  revert best; induction l as [|x t IH]; intros best; simpl.
  - split; [left; reflexivity|]. split.
    + intros y [<-|[]]; lia.
    + rewrite Nat.eqb_refl; reflexivity.
  - destruct (Nat.ltb (snd best) (snd x)) eqn:Elt.
    + apply Nat.ltb_lt in Elt.
      destruct (IH x) as [Hin [Hmax Hfind]]; simpl in Hin, Hfind.
      set (r := max_first x t) in *.
      assert (Hx : (snd x <= snd r)%nat) by (apply Hmax; left; reflexivity).
      split; [right; exact Hin|]. split.
      * intros y [<-|Hy]; [lia | apply Hmax; exact Hy].
      * replace (Nat.eqb (snd best) (snd r)) with false by (symmetry; apply Nat.eqb_neq; lia).
        exact Hfind.
    + apply Nat.ltb_ge in Elt.
      destruct (IH best) as [Hin [Hmax Hfind]]; simpl in Hin, Hfind.
      set (r := max_first best t) in *.
      assert (Hb : (snd best <= snd r)%nat) by (apply Hmax; left; reflexivity).
      split; [destruct Hin as [<-|Hin]; [left; reflexivity | right; right; exact Hin]|].
      split.
      * intros y [<-|[<-|Hy]]; [lia | lia | apply Hmax; right; exact Hy].
      * destruct (Nat.eqb (snd best) (snd r)) eqn:Eb; [exact Hfind|].
        apply Nat.eqb_neq in Eb.
        replace (Nat.eqb (snd x) (snd r)) with false by (symmetry; apply Nat.eqb_neq; lia).
        exact Hfind.
Qed.

(** The top label of a counter built by increments is the first
    observed label of maximal count. *)
Lemma entry_of_counter_top ls g c t :
  entry_of (counter_of ls) = Some (g, c, t) -> first_max ls = Some g.
Proof.
  unfold entry_of, most_common1.
  destruct (Nat.eqb (counter_total (counter_of ls)) 0); [discriminate|].
  destruct (counter_of ls) as [|best l] eqn:Ectr; [discriminate|].
  destruct (max_first best l) as [g' k] eqn:Emf.
  intros H; injection H; intros _ _ <-; clear H.
  pose proof (max_first_spec l best) as [Hin [Hmax Hfind]].
  rewrite Emf in Hin, Hmax, Hfind.
  rewrite <- Ectr in Hin, Hmax, Hfind.
  change (snd (g', k)) with k in Hmax, Hfind.
  set (cnt := count_occ label_eq_dec ls).
  assert (Hsnd : forall y, In y (counter_of ls) -> snd y = cnt (fst y)).
  { intros [x n] Hy; exact (proj1 (counter_of_in ls x n Hy)). }
  assert (Hk : k = cnt g') by exact (Hsnd _ Hin).
  assert (Hg : In g' ls) by exact (proj2 (counter_of_in ls g' k Hin)).
  assert (Hlm : list_max (map cnt ls) = k).
  { apply Nat.le_antisymm.
    - apply list_max_le, Forall_forall; intros n Hn.
      apply in_map_iff in Hn; destruct Hn as [x [<- Hx]].
      assert (Hx' : In (x, cnt x) (counter_of ls)).
      { apply (od_lookup_some_in label_eqb label_eqb_spec).
        rewrite counter_of_lookup; fold cnt.
        destruct (Nat.eqb (cnt x) 0) eqn:E; [|reflexivity].
        apply Nat.eqb_eq in E.
        pose proof (proj1 (count_occ_In label_eq_dec ls x) Hx); unfold cnt in E; lia. }
      exact (Hmax _ Hx').
    - rewrite Hk.
      assert (Hall : Forall (fun n => (n <= list_max (map cnt ls))%nat) (map cnt ls))
        by (apply list_max_le; reflexivity).
      rewrite Forall_forall in Hall; apply Hall, in_map, Hg. }
  unfold first_max; fold cnt; rewrite Hlm.
  rewrite find_counter_keys, find_map.
  rewrite (find_ext_in _ (fun y => Nat.eqb (snd y) k)).
  - rewrite Hfind; reflexivity.
  - intros y Hy; rewrite (Hsnd y Hy); reflexivity.
Qed.

Lemma labels_for_snoc fname os o :
  labels_for fname (os ++ [o]) =
  labels_for fname os ++ (let '(f, g, _) := o in if str_eqb f fname then [g] else []).
Proof.
  unfold labels_for; rewrite filter_app, map_app; destruct o as [[f g] c]; simpl.
  destruct (str_eqb f fname); reflexivity.
Qed.

Lemma fst_count_obs st o :
  fst (count_obs st o) = let '(f, g, _) := o in incr_global f g (fst st).
Proof. destruct st as [cg cc], o as [[f g] c]; reflexivity. Qed.

(** [counts_global[fname]] is the counter of the labels read for
    [fname]; its keys are distinct. *)
Lemma fold_count_obs_global os (st : global_counts * country_counts) :
  NoDup (map fst (fst st)) ->
  NoDup (map fst (fst (fold_left count_obs os st))) /\
  forall fname,
    od_lookup str_eqb fname (fst (fold_left count_obs os st)) =
    match od_lookup str_eqb fname (fst st), labels_for fname os with
    | None, [] => None
    | None, ls => Some (counter_of ls)
    | Some c, ls => Some (fold_left (fun c g => counter_incr g c) ls c)
    end.
Proof.
  intros Hnd0.
  induction os as [|o os IH] using rev_ind.
  - split; [exact Hnd0|]. intros fname; cbn [fold_left labels_for filter map].
    destruct (od_lookup str_eqb fname (fst st)); reflexivity.
  - destruct IH as [Hnd IH].
    rewrite fold_left_app; simpl; rewrite fst_count_obs.
    destruct o as [[f g] c]; unfold incr_global.
    split; [apply (od_update_nodup str_eqb str_eqb_spec), Hnd|].
    intros fname.
    rewrite (od_lookup_update str_eqb str_eqb_spec), labels_for_snoc.
    destruct (str_eqb fname f) eqn:E.
    + apply str_eqb_spec in E; subst f. rewrite (eqb_refl str_eqb str_eqb_spec).
      rewrite IH.
      destruct (od_lookup str_eqb fname (fst st)) as [c0|];
        destruct (labels_for fname os) as [|l0 ls] eqn:El; simpl;
        try reflexivity.
      * rewrite fold_left_app; reflexivity.
      * rewrite app_comm_cons, counter_of_snoc; reflexivity.
    + destruct (str_eqb f fname) eqn:E'.
      { apply str_eqb_spec in E'; subst; rewrite (eqb_refl str_eqb str_eqb_spec) in E;
        discriminate. }
      rewrite app_nil_r; apply IH.
Qed.

Lemma aggregate_global_lookup rows fname :
  NoDup (map fst (fst (aggregate rows))) /\
  od_lookup str_eqb fname (fst (aggregate rows)) =
  match labels_for fname (ref_observations rows) with
  | [] => None
  | ls => Some (counter_of ls)
  end.
Proof.
  destruct (fold_count_obs_global (ref_observations rows) ([], []) (NoDup_nil _))
    as [Hnd H].
  split; [exact Hnd|]. unfold aggregate; rewrite H; reflexivity.
Qed.

Lemma build_mapping_lookup_aux cg m k :
  NoDup (map fst cg) ->
  od_lookup str_eqb k
    (fold_left (fun m '(fname, ctr) =>
                  match entry_of ctr with
                  | None => m
                  | Some e => od_update str_eqb fname (fun _ => e) m
                  end) cg m) =
  match od_lookup str_eqb k cg with
  | Some ctr => match entry_of ctr with Some e => Some e | None => od_lookup str_eqb k m end
  | None => od_lookup str_eqb k m
  end.
Proof.
  revert m; induction cg as [|[f ctr] t IH]; intros m Hnd; simpl; [reflexivity|].
  inversion Hnd as [|? ? Hnot Hnd']; subst.
  rewrite (IH _ Hnd').
  destruct (str_eqb k f) eqn:E.
  - apply str_eqb_spec in E; subst f.
    destruct (od_lookup str_eqb k t) eqn:Et.
    { exfalso; apply Hnot.
      apply (in_map fst _ (k, c)), (od_lookup_some_in str_eqb str_eqb_spec), Et. }
    destruct (entry_of ctr); [|reflexivity].
    rewrite (od_lookup_update str_eqb str_eqb_spec), (eqb_refl str_eqb str_eqb_spec).
    reflexivity.
  - destruct (od_lookup str_eqb k t); [destruct (entry_of c)|];
      destruct (entry_of ctr); try reflexivity;
      rewrite (od_lookup_update str_eqb str_eqb_spec), E; reflexivity.
Qed.

Lemma build_mapping_lookup cg k :
  NoDup (map fst cg) ->
  od_lookup str_eqb k (build_mapping cg) =
  match od_lookup str_eqb k cg with Some ctr => entry_of ctr | None => None end.
Proof.
  intros Hnd; unfold build_mapping; rewrite (build_mapping_lookup_aux cg [] k Hnd).
  destruct (od_lookup str_eqb k cg); [destruct (entry_of c)|]; reflexivity.
Qed.

Lemma fst_mappings rows : fst (mappings rows) = build_mapping (fst (aggregate rows)).
Proof. unfold mappings; destruct (aggregate rows); reflexivity. Qed.

(** C4 (as the code does it): the top label stored for a name is the
    label of maximal count that was observed first among the reference
    rows of that name (the insertion order of its [Counter]), not a
    fixed enumeration order. *)
Theorem C4_tie_break_first_observed rows fname g c t :
  od_lookup str_eqb fname (fst (mappings rows)) = Some (g, c, t) ->
  first_max (labels_for fname (ref_observations rows)) = Some g.
Proof.
  rewrite fst_mappings.
  destruct (aggregate_global_lookup rows fname) as [Hnd Hl].
  rewrite (build_mapping_lookup _ _ Hnd), Hl.
  destruct (labels_for fname (ref_observations rows)) as [|l0 ls]; [discriminate|].
  apply entry_of_counter_top.
Qed.

Lemma C4_tie_break_first_observed_witness :
  od_lookup str_eqb (u "alex") (fst (mappings ref_tie)) = Some (F, (1 # 2) * (7 # 10), 2%nat)%Q /\
  first_max (labels_for (u "alex") (ref_observations ref_tie)) = Some F.
Proof.
  split; [vm_compute; reflexivity|].
  apply (C4_tie_break_first_observed ref_tie (u "alex") F ((1 # 2) * (7 # 10))%Q 2%nat).
  vm_compute; reflexivity.
Defined.

(* ------------------------------------------------------------------ *)
(** ** The decision cascade *)

Lemma Qle_bool_thr_of_eq c r : (c == r)%Q -> Qle_bool CONF_THRESHOLD c = Qle_bool CONF_THRESHOLD r.
Proof.
  intros H. destruct (Qle_bool CONF_THRESHOLD r) eqn:E.
  - apply Qle_bool_iff; rewrite H; apply Qle_bool_iff, E.
  - destruct (Qle_bool CONF_THRESHOLD c) eqn:E'; [|reflexivity].
    apply Qle_bool_iff in E'; rewrite H in E'; apply Qle_bool_iff in E'; congruence.
Qed.

(** C2 (counterexample): in [ref_c2] the "US" entry for "alex" is
    (Unknown, 0.70, 10) and the global one (Male, 0.90, 70); the row
    ("Alex", "US") is decided from the global entry, source "mapped". *)
Lemma C2_unknown_country_label_overridden :
  (exists c, od_lookup pair_eqb (u "US", u "alex") (snd (mappings ref_c2)) =
             Some (Unknown, c, 10%nat) /\ (c == 7 # 10)%Q) /\
  (exists c, od_lookup str_eqb (u "alex") (fst (mappings ref_c2)) = Some (M, c, 70%nat) /\
             (c == 9 # 10)%Q /\
             decide (fst (mappings ref_c2)) (snd (mappings ref_c2)) None [u "Alex"; u "US"] =
             (M, c, mapped)).
Proof.
  split; eexists; split; try reflexivity; split; reflexivity.
Qed.

(** C2 (as the code does it): a record whose name has a country-scoped
    entry of confidence 0.70 and a global entry of confidence 0.90 is
    decided from the country-scoped entry ("country-mapped") when that
    entry's label is Male or Female; when its label is Unknown the record
    counts as undecided and the global entry is emitted ("mapped"). *)
Theorem C2_country_precedes_global (m : global_mapping) (mc : scoped_mapping) gg row gc cc tc gl gconf tg :
  get_first_name (row_name row) <> [] ->
  od_lookup pair_eqb (row_country row, get_first_name (row_name row)) mc = Some (gc, cc, tc) ->
  (cc == 7 # 10)%Q ->
  od_lookup str_eqb (get_first_name (row_name row)) m = Some (gl, gconf, tg) ->
  (gconf == 9 # 10)%Q ->
  decide m mc gg row =
  if label_eqb gc Unknown then (gl, gconf, mapped) else (gc, cc, country_mapped).
Proof.
  intros Hne Hc Hcc Hg Hgc.
  unfold decide; revert Hne Hc Hg.
  generalize (get_first_name (row_name row)) as fname.
  generalize (row_country row) as country.
  intros country fname Hne Hc Hg.
  unfold step_mapping.
  destruct fname as [|z zs]; [congruence|].
  rewrite Hc, (Qle_bool_thr_of_eq _ _ Hcc); simpl Qle_bool.
  assert (Hnil : str_eqb (z :: zs) [] = false) by reflexivity.
  assert (Hthr : Qltb gconf CONF_THRESHOLD = false)
    by (unfold Qltb; rewrite (Qle_bool_thr_of_eq _ _ Hgc); reflexivity).
  destruct gc; simpl.
  - reflexivity.
  - reflexivity.
  - unfold step_gg; simpl is_unknown; rewrite ?Hnil, ?Hg, ?Hthr; simpl.
    unfold step_final; rewrite Hnil, Hg.
    destruct gl; reflexivity.
Qed.

Lemma C2_country_precedes_global_witness :
  decide (fst (mappings ref_c2)) (snd (mappings ref_c2)) None [u "Alex"; u "US"] =
  (M, 63 # 70, mapped)%Q.
Proof.
  apply (C2_country_precedes_global _ _ None [u "Alex"; u "US"] Unknown (7 # 10)%Q 10%nat
           M (63 # 70)%Q 70%nat); vm_compute; first [reflexivity | discriminate].
Defined.

(** C3 (divergence from the spec): in [ref_c3b] the "US" entry for
    "alex" is (Male, 0.35, 2), which lines 191-194 store as the candidate,
    and the global entry is (Female, 0.6, 10), also below the threshold.
    With a classifier answering "unknown" (confidence 0), the spec's step 4
    with that candidate gives (Male, 0.35, "mapped"); the code, which
    overwrites [cand_conf] with the global confidence on line 215 and
    emits [mapping[fname][0]] on line 221, gives (Female, 0.6, "mapped"). *)
Lemma C3_country_candidate_dropped :
  (exists c, od_lookup pair_eqb (u "US", u "alex") (snd (mappings ref_c3b)) =
             Some (M, c, 2%nat) /\ (c == 35 # 100)%Q) /\
  (exists c, od_lookup str_eqb (u "alex") (fst (mappings ref_c3b)) =
             Some (F, c, 10%nat) /\ (c == 6 # 10)%Q) /\
  gg_guess gg_unknown (u "alex") = (Unknown, 0%Q) /\
  (exists c, stored_candidate (fst (mappings ref_c3b)) (snd (mappings ref_c3b))
               (u "US") (u "alex") = Some (M, c) /\
             spec_step4 (Some (M, c)) (Unknown, 0%Q) undecided = (M, c, mapped)) /\
  (exists c, decide (fst (mappings ref_c3b)) (snd (mappings ref_c3b)) gg_unknown
               [u "Alex"; u "US"] = (F, c, mapped) /\ (c == 6 # 10)%Q).
Proof.
  split; [|split; [|split; [|split]]].
  - eexists; split; reflexivity.
  - eexists; split; reflexivity.
  - reflexivity.
  - eexists; split; reflexivity.
  - eexists; split; reflexivity.
Qed.

(** C3 (what the code does): for a record with a non-empty name token
    that the mapping steps leave with the label Unknown, and an
    available classifier answering (gg_g, gg_conf), the arbitration of
    lines 202-229 compares the classifier only with the global entry:
    - if the global entry (gl, gc) exists with gc >= 0.65, the result is
      (gl, gc, "mapped") and the classifier's answer is not used;
    - if it exists with gc < 0.65, the result is the classifier's
      (gg_g, gg_conf, "gender-guesser") iff gg_conf >= 0.85 or
      gg_conf > gc, and gg_g is not Unknown; otherwise it is
      (gl, gc, "mapped");
    - if there is no global entry, the result is the classifier's iff
      gg_conf >= 0.85 or gg_conf > 0, and otherwise what the mapping
      steps left.
    The country-scoped candidate stored on lines 191-194 is never read:
    line 215 overwrites [cand_conf] before its only use. *)
Theorem C3_fallback_arbitration (m : global_mapping) (mc : scoped_mapping) d row s :
  get_first_name (row_name row) <> [] ->
  s = step_mapping m mc (row_country row) (get_first_name (row_name row)) undecided ->
  is_unknown s = true ->
  decide m mc (Some d) row =
  let fname := get_first_name (row_name row) in
  let '(gg_g, gg_conf) := gg_guess (Some d) fname in
  match od_lookup str_eqb fname m with
  | Some (gl, gc, _) =>
      if Qle_bool CONF_THRESHOLD gc then (gl, gc, mapped)
      else if (Qle_bool (85 # 100) gg_conf || Qltb gc gg_conf) &&
              negb (label_eqb gg_g Unknown)
           then (gg_g, gg_conf, gender_guesser)
           else (gl, gc, mapped)
  | None =>
      if Qle_bool (85 # 100) gg_conf || Qltb 0 gg_conf
      then (gg_g, gg_conf, gender_guesser) else s
  end.
Proof.
  intros Hne Hs Hu.
  unfold decide; rewrite <- Hs; clear Hs; cbv zeta.
  revert Hne. generalize (get_first_name (row_name row)) as fname. intros fname Hne.
  assert (Hnil : str_eqb fname [] = false).
  { destruct (str_eqb fname []) eqn:E; [apply str_eqb_spec in E; congruence | reflexivity]. }
  destruct (gg_guess (Some d) fname) as [gg_g gg_conf] eqn:Egg.
  unfold step_gg; rewrite Hu, Hnil; simpl andb.
  rewrite Egg.
  destruct (od_lookup str_eqb fname m) as [[[gl gc] t]|] eqn:Em.
  - unfold Qltb at 1.
    destruct (Qle_bool CONF_THRESHOLD gc) eqn:Ethr; simpl.
    + unfold step_final; rewrite Hnil, Em.
      destruct gl; reflexivity.
    + destruct (Qle_bool (85 # 100) gg_conf || Qltb gc gg_conf) eqn:Ec; simpl.
      * unfold step_final; rewrite Hnil, Em.
        destruct gg_g; reflexivity.
      * destruct (Qltb gg_conf gc); unfold step_final.
        -- rewrite Hnil, Em; destruct gl; reflexivity.
        -- rewrite Hu, Hnil, Em; reflexivity.
  - simpl.
    destruct (Qle_bool (85 # 100) gg_conf || Qltb 0 gg_conf); unfold step_final;
      rewrite ?Hu, Hnil, Em; [destruct (is_unknown (gg_g, gg_conf, gender_guesser))|];
      reflexivity.
Qed.

Lemma C3_fallback_arbitration_witness :
  decide (fst (mappings ref_c3)) (snd (mappings ref_c3)) gg_male [u "Alex"; u "US"] =
  (F, 9 # 10, mapped)%Q.
Proof.
  refine (eq_trans (C3_fallback_arbitration (fst (mappings ref_c3)) (snd (mappings ref_c3))
                      (fun _ => male) [u "Alex"; u "US"]
                      (Unknown, 0%Q, unknown) _ _ _) _);
    vm_compute; first [reflexivity | discriminate].
Defined.

(* ------------------------------------------------------------------ *)
(** ** Output rows *)

Lemma Forall2_map_r {A B} (P : A -> B -> Prop) (f : A -> B) l :
  (forall x, In x l -> P x (f x)) -> Forall2 P l (map f l).
Proof.
  induction l as [|x t IH]; intros H; simpl; constructor.
  - apply H; left; reflexivity.
  - apply IH; intros; apply H; right; assumption.
Qed.

(** C9: after the header, the output has one row per non-empty,
    non-header input row, in order, and each such row is the input row
    unchanged followed by exactly three cells: Gender,
    GenderConfidence, GenderSource. *)
Theorem C9_row_roundtrip m mc gg rows :
  exists hdr outs,
    process_input m mc gg rows = hdr :: outs /\
    Forall2 (fun r o => exists g q src,
                 o = r ++ [label_str g; format3 q; source_str src])
            (filter is_data_row (tl rows)) outs.
Proof.
  assert (Hb : forall rest, Forall2 (fun r o => exists g q src,
                 o = r ++ [label_str g; format3 q; source_str src])
               (filter is_data_row rest) (map (output_row m mc gg) (filter is_data_row rest))).
  { intros rest; apply Forall2_map_r; intros r _.
    unfold output_row; destruct (decide m mc gg r) as [[g q] src].
    exists g, q, src; reflexivity. }
  destruct rows as [|[|c cs] rest]; simpl.
  - do 2 eexists; split; [reflexivity | constructor].
  - do 2 eexists; split; [reflexivity | apply Hb].
  - do 2 eexists; split; [reflexivity | apply Hb].
Qed.

(* ------------------------------------------------------------------ *)
(** ** Confidence bounds *)

Lemma counter_total_ge ctr x n : In (x, n) ctr -> (n <= counter_total ctr)%nat.
Proof.
  unfold counter_total; induction ctr as [|[y k] t IH]; simpl; [tauto|].
  intros [H|H]; [injection H; intros; subst; lia | specialize (IH H); lia].
Qed.

Lemma entry_of_total ctr g c t : entry_of ctr = Some (g, c, t) -> t = counter_total ctr.
Proof.
  unfold entry_of; destruct (Nat.eqb (counter_total ctr) 0); [discriminate|].
  destruct (most_common1 ctr) as [[tg tc]|]; [|discriminate].
  intros H; injection H; intros; subst; reflexivity.
Qed.

Lemma most_common1_in ctr r :
  most_common1 ctr = Some r -> In r ctr /\ (forall y, In y ctr -> (snd y <= snd r)%nat).
Proof.
  destruct ctr as [|best l]; simpl; [discriminate|].
  intros H; injection H; intros <-.
  destruct (max_first_spec l best) as [Hin [Hmax _]]; split; assumption.
Qed.

Lemma entry_of_unit ctr g c t : entry_of ctr = Some (g, c, t) -> (0 <= c <= 1)%Q.
Proof.
  unfold entry_of.
  destruct (Nat.eqb (counter_total ctr) 0) eqn:Ez; [discriminate|].
  apply Nat.eqb_neq in Ez.
  destruct (most_common1 ctr) as [[tg tc]|] eqn:Em; [|discriminate].
  destruct (most_common1_in _ _ Em) as [Hin _].
  pose proof (counter_total_ge _ _ _ Hin) as Hle.
  set (total := counter_total ctr) in *.
  assert (Hpos : (0 < nat2Q total)%Q).
  { unfold nat2Q, Qlt; simpl; lia. }
  assert (H01 : (0 <= nat2Q tc / nat2Q total <= 1)%Q).
  { split.
    - apply Qle_shift_div_l; [exact Hpos|].
      unfold nat2Q, Qle; simpl; lia.
    - apply Qle_shift_div_r; [exact Hpos|].
      rewrite Qmult_1_l; unfold nat2Q, Qle; simpl; lia. }
  intros H; injection H; intros _ <- _; clear H.
  destruct (Nat.ltb total MIN_COUNT_FOR_CONFIDENCE && Qltb (nat2Q tc / nat2Q total) 1).
  - destruct H01 as [H0 H1]. split.
    + apply Qmult_le_0_compat; [exact H0 | discriminate].
    + apply Qle_trans with (1 * (7 # 10))%Q; [|discriminate].
      apply Qmult_le_compat_r; [exact H1 | discriminate].
  - exact H01.
Qed.

Lemma od_update_in {K V} (eqb : K -> K -> bool) (eqb_spec : forall a b, eqb a b = true <-> a = b)
    k0 (f : option V -> V) d k v :
  In (k, v) (od_update eqb k0 f d) ->
  In (k, v) d \/ (k = k0 /\ (v = f None \/ exists v0, In (k0, v0) d /\ v = f (Some v0))).
Proof.
  induction d as [|[k1 v1] t IH]; simpl.
  - intros [H|[]]; injection H; intros; subst; right; split; [reflexivity | left; reflexivity].
  - destruct (eqb k0 k1) eqn:E.
    + apply eqb_spec in E; subst k1.
      intros [H|H].
      * injection H; intros; subst. right; split; [reflexivity|].
        right; exists v1; split; [left; reflexivity | reflexivity].
      * left; right; exact H.
    + intros [H|H]; [left; left; exact H|].
      destruct (IH H) as [H'|[Hk [Hv|[v0 [Hin Hv]]]]].
      * left; right; exact H'.
      * right; split; [exact Hk | left; exact Hv].
      * right; split; [exact Hk|]. right; exists v0; split; [right; exact Hin | exact Hv].
Qed.

Lemma build_mapping_in cg k e :
  In (k, e) (build_mapping cg) -> exists ctr, In (k, ctr) cg /\ entry_of ctr = Some e.
Proof.
  unfold build_mapping.
  assert (Hgen : forall m, In (k, e) (fold_left (fun m '(fname, ctr) =>
                   match entry_of ctr with
                   | None => m
                   | Some e => od_update str_eqb fname (fun _ => e) m
                   end) cg m) ->
                 In (k, e) m \/ exists ctr, In (k, ctr) cg /\ entry_of ctr = Some e).
  { induction cg as [|[f ctr] t IH]; intros m H; simpl in H; [left; exact H|].
    destruct (IH _ H) as [H'|[ctr' [Hin He]]].
    - destruct (entry_of ctr) as [e'|] eqn:Ee; [|left; exact H'].
      destruct (od_update_in str_eqb str_eqb_spec _ _ _ _ _ H') as [H''|[Hk [Hv|[v0 [_ Hv]]]]].
      + left; exact H''.
      + right; exists ctr; subst; split; [left; reflexivity | exact Ee].
      + right; exists ctr; subst; split; [left; reflexivity | exact Ee].
    - right; exists ctr'; split; [right; exact Hin | exact He]. }
  intros H; destruct (Hgen [] H) as [[]|H']; exact H'.
Qed.

Lemma build_mapping_country_in cc k e :
  In (k, e) (build_mapping_country cc) ->
  exists d ctr, In (fst k, d) cc /\ In (snd k, ctr) d /\ entry_of ctr = Some e.
Proof.
  unfold build_mapping_country.
  assert (Hin_d : forall country d m,
            In (k, e) (fold_left (fun m '(fname, ctr) =>
                          match entry_of ctr with
                          | None => m
                          | Some e => od_update pair_eqb (country, fname) (fun _ => e) m
                          end) d m) ->
            In (k, e) m \/ exists ctr, fst k = country /\ In (snd k, ctr) d /\ entry_of ctr = Some e).
  { intros country d; induction d as [|[f ctr] t IH]; intros m H; simpl in H; [left; exact H|].
    destruct (IH _ H) as [H'|[ctr' [Hc [Hin He]]]].
    - destruct (entry_of ctr) as [e'|] eqn:Ee; [|left; exact H'].
      assert (Hps : forall a b, pair_eqb a b = true <-> a = b).
      { intros [a1 a2] [b1 b2]; unfold pair_eqb; simpl.
        rewrite andb_true_iff, !str_eqb_spec; split; [intros [-> ->]; reflexivity|].
        intros Hab; injection Hab; intros; subst; split; reflexivity. }
      destruct (od_update_in pair_eqb Hps _ _ _ _ _ H') as [H''|[Hk [Hv|[v0 [_ Hv]]]]].
      + left; exact H''.
      + right; exists ctr; subst; split; [reflexivity | split; [left; reflexivity | exact Ee]].
      + right; exists ctr; subst; split; [reflexivity | split; [left; reflexivity | exact Ee]].
    - right; exists ctr'; split; [exact Hc | split; [right; exact Hin | exact He]]. }
  assert (Hgen : forall m, In (k, e) (fold_left (fun m '(country, d) =>
                   fold_left (fun m '(fname, ctr) =>
                                match entry_of ctr with
                                | None => m
                                | Some e => od_update pair_eqb (country, fname) (fun _ => e) m
                                end) d m) cc m) ->
                 In (k, e) m \/
                 exists d ctr, In (fst k, d) cc /\ In (snd k, ctr) d /\ entry_of ctr = Some e).
  { induction cc as [|[country d] t IH]; intros m H; simpl in H; [left; exact H|].
    destruct (IH _ H) as [H'|[d' [ctr [Hd [Hc He]]]]].
    - destruct (Hin_d country d m H') as [H''|[ctr [Hk [Hc He]]]]; [left; exact H''|].
      right; exists d, ctr; subst; split; [left; reflexivity | split; assumption].
    - right; exists d', ctr; split; [right; exact Hd | split; assumption]. }
  intros H; destruct (Hgen [] H) as [[]|H']; exact H'.
Qed.

(** C8: every entry of the global and of the country-scoped mapping,
    whatever the reference rows, has its confidence in [0, 1]. *)
Theorem C8_confidence_in_unit rows :
  Forall (fun '(_, (_, c, _)) => (0 <= c <= 1)%Q) (fst (mappings rows)) /\
  Forall (fun '(_, (_, c, _)) => (0 <= c <= 1)%Q) (snd (mappings rows)).
Proof.
  unfold mappings; destruct (aggregate rows) as [cg cc]; simpl.
  split; apply Forall_forall; intros [k [[g c] t]] Hin.
  - destruct (build_mapping_in _ _ _ Hin) as [ctr [_ He]].
    exact (entry_of_unit _ _ _ _ He).
  - destruct (build_mapping_country_in _ _ _ Hin) as [d [ctr [_ [_ He]]]].
    exact (entry_of_unit _ _ _ _ He).
Qed.

(* ------------------------------------------------------------------ *)
(** ** Country-scoped counts are bounded by the global ones *)

Lemma counter_total_incr g ctr : counter_total (counter_incr g ctr) = S (counter_total ctr).
Proof.
  unfold counter_total, counter_incr.
  induction ctr as [|[k v] t IH]; simpl; [reflexivity|].
  destruct (label_eqb g k); simpl; [reflexivity|].
  rewrite IH; lia.
Qed.

(** Lookup in the global table after one increment. *)
Lemma incr_global_lookup f0 g0 cg f :
  od_lookup str_eqb f (incr_global f0 g0 cg) =
  if str_eqb f f0
  then Some (counter_incr g0 (match od_lookup str_eqb f0 cg with Some c => c | None => [] end))
  else od_lookup str_eqb f cg.
Proof. unfold incr_global; rewrite (od_lookup_update str_eqb str_eqb_spec); reflexivity. Qed.

Lemma incr_global_grow f0 g0 cg f ctr_g :
  od_lookup str_eqb f cg = Some ctr_g ->
  exists ctr_g', od_lookup str_eqb f (incr_global f0 g0 cg) = Some ctr_g' /\
                 (counter_total ctr_g <= counter_total ctr_g')%nat.
Proof.
  intros H; rewrite incr_global_lookup.
  destruct (str_eqb f f0) eqn:E.
  - apply str_eqb_spec in E; subst f; rewrite H.
    eexists; split; [reflexivity|]; rewrite counter_total_incr; lia.
  - exists ctr_g; split; [exact H | lia].
Qed.

Lemma count_obs_scoped_le_global st o :
  scoped_le_global st -> scoped_le_global (count_obs st o).
Proof.
  destruct st as [cg cc], o as [[f0 g0] c0]; unfold scoped_le_global; simpl.
  intros Inv c d f ctr Hd Hf.
  assert (Hnew : forall ctr0,
            (counter_total ctr0 <= match od_lookup str_eqb f0 cg with
                                   | Some c => counter_total c | None => 0 end)%nat ->
            exists ctr_g, od_lookup str_eqb f0 (incr_global f0 g0 cg) = Some ctr_g /\
                          (counter_total (counter_incr g0 ctr0) <= counter_total ctr_g)%nat).
  { intros ctr0 Hle; rewrite incr_global_lookup, (eqb_refl str_eqb str_eqb_spec).
    eexists; split; [reflexivity|]; rewrite !counter_total_incr.
    destruct (od_lookup str_eqb f0 cg); simpl; lia. }
  destruct c0 as [|z zs].
  - destruct (Inv c d f ctr Hd Hf) as [ctr_g [Hl Hle]].
    destruct (incr_global_grow f0 g0 cg f ctr_g Hl) as [ctr_g' [Hl' Hle']].
    exists ctr_g'; split; [exact Hl' | lia].
  - unfold incr_country in Hd.
    destruct (od_update_in str_eqb str_eqb_spec _ _ _ _ _ Hd)
      as [Hd'|[Hc [Hv|[d0 [Hd0 Hv]]]]].
    + destruct (Inv c d f ctr Hd' Hf) as [ctr_g [Hl Hle]].
      destruct (incr_global_grow f0 g0 cg f ctr_g Hl) as [ctr_g' [Hl' Hle']].
      exists ctr_g'; split; [exact Hl' | lia].
    + subst d; unfold incr_global in Hf.
      destruct (od_update_in str_eqb str_eqb_spec _ _ _ _ _ Hf)
        as [[]|[Hf0 [Hv|[v0 [[] _]]]]].
      subst f ctr; apply Hnew, Nat.le_0_l.
    + subst d; unfold incr_global in Hf.
      destruct (od_update_in str_eqb str_eqb_spec _ _ _ _ _ Hf)
        as [Hf'|[Hf0 [Hv|[ctr0 [Hc0 Hv]]]]].
      * destruct (Inv c d0 f ctr (eq_ind _ (fun k => In (k, d0) cc) Hd0 _ (eq_sym Hc)) Hf')
          as [ctr_g [Hl Hle]].
        destruct (incr_global_grow f0 g0 cg f ctr_g Hl) as [ctr_g' [Hl' Hle']].
        exists ctr_g'; split; [exact Hl' | lia].
      * subst f ctr; apply Hnew, Nat.le_0_l.
      * subst f ctr; apply Hnew.
        destruct (Inv _ d0 f0 ctr0 Hd0 Hc0) as [ctr_g [Hl Hle]].
        rewrite Hl; exact Hle.
Qed.

Lemma aggregate_scoped_le_global rows : scoped_le_global (aggregate rows).
Proof.
  unfold aggregate.
  assert (H : forall os st, scoped_le_global st -> scoped_le_global (fold_left count_obs os st)).
  { induction os as [|o os IH]; intros st Hst; simpl; [exact Hst|].
    apply IH, count_obs_scoped_le_global, Hst. }
  apply H; unfold scoped_le_global; simpl; tauto.
Qed.

Lemma entry_of_some ctr :
  counter_total ctr <> 0%nat -> exists g c, entry_of ctr = Some (g, c, counter_total ctr).
Proof.
  intros Hz; unfold entry_of.
  destruct (Nat.eqb (counter_total ctr) 0) eqn:E; [apply Nat.eqb_eq in E; congruence|].
  destruct ctr as [|best l]; [unfold counter_total in Hz; simpl in Hz; congruence|].
  simpl most_common1; destruct (max_first best l) as [tg tc].
  do 2 eexists; reflexivity.
Qed.

(** C10: for every reference dataset, every key (country, name) of the
    country-scoped mapping has the name in the global mapping, with a
    total count at least the scoped one. *)
Theorem C10_scoped_implies_global rows :
  Forall (fun '((_, fname), (_, _, tc)) =>
            exists g c tg, od_lookup str_eqb fname (fst (mappings rows)) = Some (g, c, tg) /\
                           (tc <= tg)%nat)
         (snd (mappings rows)).
Proof.
  pose proof (aggregate_scoped_le_global rows) as Inv.
  pose proof (proj1 (aggregate_global_lookup rows [])) as Hnd.
  unfold mappings; destruct (aggregate rows) as [cg cc]; simpl in *.
  apply Forall_forall; intros [[country fname] [[g c] tc]] Hin.
  destruct (build_mapping_country_in _ _ _ Hin) as [d [ctr [Hd [Hf He]]]]; simpl in Hd, Hf.
  pose proof (entry_of_total _ _ _ _ He) as Htc.
  assert (Hz : counter_total ctr <> 0%nat).
  { intros Hz; unfold entry_of in He; rewrite Hz in He; discriminate. }
  destruct (Inv _ _ _ _ Hd Hf) as [ctr_g [Hl Hle]].
  destruct (entry_of_some ctr_g) as [g' [c' He']]; [lia|].
  exists g', c', (counter_total ctr_g); split; [|lia].
  simpl in Hl; rewrite (build_mapping_lookup _ _ Hnd), Hl; exact He'.
Qed.

(* ------------------------------------------------------------------ *)
(** ** The audit *)

Lemma insert_desc_perm x l : Permutation (insert_desc x l) (x :: l).
Proof.
  induction l as [|y t IH]; simpl; [reflexivity|].
  destruct (Nat.leb (snd x) (snd y)); [|reflexivity].
  rewrite IH; apply perm_swap.
Qed.

Lemma most_common_perm ctr : Permutation (most_common ctr) ctr.
Proof.
  unfold most_common.
  assert (H : forall l acc, Permutation (fold_left (fun acc x => insert_desc x acc) l acc)
                                        (l ++ acc)).
  { induction l as [|x t IH]; intros acc; simpl; [reflexivity|].
    rewrite IH, insert_desc_perm; symmetry; apply Permutation_middle. }
  rewrite H, app_nil_r; reflexivity.
Qed.

Lemma insert_desc_sorted x l :
  Sorted desc (map snd l) -> Sorted desc (map snd (insert_desc x l)).
Proof.
  induction l as [|y t IH]; intros Hs; simpl.
  - repeat constructor.
  - destruct (Nat.leb (snd x) (snd y)) eqn:E.
    + apply Nat.leb_le in E.
      apply Sorted_inv in Hs; destruct Hs as [Ht Hhd].
      simpl; constructor; [apply IH, Ht|].
      destruct t as [|z t']; simpl.
      * constructor; exact E.
      * destruct (Nat.leb (snd x) (snd z)); simpl; constructor.
        -- inversion Hhd; assumption.
        -- exact E.
    + apply Nat.leb_gt in E.
      simpl; constructor; [exact Hs|]. constructor; unfold desc; lia.
Qed.

Lemma most_common_sorted ctr : Sorted desc (map snd (most_common ctr)).
Proof.
  unfold most_common.
  assert (H : forall l acc, Sorted desc (map snd acc) ->
                Sorted desc (map snd (fold_left (fun acc x => insert_desc x acc) l acc))).
  { induction l as [|x t IH]; intros acc Hacc; simpl; [exact Hacc|].
    apply IH, insert_desc_sorted, Hacc. }
  apply H; constructor.
Qed.

Lemma sorted_desc_unique (l1 l2 : list nat) :
  Sorted desc l1 -> Sorted desc l2 -> Permutation l1 l2 -> l1 = l2.
Proof.
  assert (Htr : Transitive desc) by (intros a b c; unfold desc; lia).
  intros H1 H2; apply (Sorted_StronglySorted Htr) in H1, H2.
  revert l2 H2; induction l1 as [|a t1 IH]; intros l2 H2 Hp.
  - symmetry; apply Permutation_nil, Hp.
  - destruct l2 as [|b t2].
    + apply Permutation_sym, Permutation_nil_cons in Hp; contradiction.
    + apply StronglySorted_inv in H1, H2.
      destruct H1 as [Hs1 Hf1], H2 as [Hs2 Hf2].
      assert (Hab : a = b).
      { assert (Ha : In a (b :: t2)) by (apply (Permutation_in a Hp); left; reflexivity).
        assert (Hb : In b (a :: t1)) by (apply (Permutation_in b (Permutation_sym Hp)); left; reflexivity).
        rewrite Forall_forall in Hf1, Hf2; unfold desc in Hf1, Hf2.
        destruct Ha as [Ha|Ha]; [symmetry; exact Ha|].
        destruct Hb as [Hb|Hb]; [exact Hb|].
        specialize (Hf1 _ Hb); specialize (Hf2 _ Ha); lia. }
      subst b; f_equal; apply IH; [exact Hs1 | exact Hs2 | exact (Permutation_cons_inv Hp)].
Qed.

Lemma Qltb_iff a b : Qltb a b = true <-> (a < b)%Q.
Proof.
  unfold Qltb; rewrite negb_true_iff; split.
  - intros H; apply Qnot_le_lt; intros H'; apply Qle_bool_iff in H'; congruence.
  - intros H; destruct (Qle_bool b a) eqn:E; [|reflexivity].
    apply Qle_bool_iff in E; exfalso; exact (Qlt_not_le _ _ H E).
Qed.

Lemma audit_row_name f ctr e : audit_row f ctr = Some e -> audit_first_name e = f.
Proof.
  unfold audit_row; destruct (Nat.eqb (counter_total ctr) 0); [discriminate|].
  destruct (most_common ctr) as [|[tg tc] more]; [discriminate|].
  destruct (_ || _ || _); [|discriminate].
  intros H; injection H; intros <-; reflexivity.
Qed.

(** The flag condition of one counter, with its counts sorted. *)
Lemma audit_row_flag fname ctr cs :
  (0 < counter_total ctr)%nat ->
  Permutation cs (map snd ctr) -> Sorted desc cs ->
  audit_row fname ctr <> None <->
  (counter_total ctr < 50 \/
   (nat2Q (nth 0 cs 0%nat) / nat2Q (counter_total ctr) < 7 # 10)%Q \/
   (2 <= List.length ctr /\ nth 0 cs 0%nat - nth 1 cs 0%nat < 3))%nat.
Proof.
  intros Htot Hp Hs.
  assert (Hcs : map snd (most_common ctr) = cs).
  { apply sorted_desc_unique; [apply most_common_sorted | exact Hs|].
    rewrite Hp; apply Permutation_map, most_common_perm. }
  assert (Hlen : List.length (most_common ctr) = List.length ctr)
    by apply Permutation_length, most_common_perm.
  unfold audit_row.
  destruct (Nat.eqb (counter_total ctr) 0) eqn:Ez; [apply Nat.eqb_eq in Ez; lia|].
  destruct (most_common ctr) as [|[tg tc] more] eqn:Em.
  - destruct ctr; [unfold counter_total in Htot; simpl in Htot; lia | discriminate].
  - subst cs; simpl nth; rewrite <- Hlen.
    assert (Hsc : (match more with (_, c) :: _ => c | [] => 0%nat end) = nth 0 (map snd more) 0%nat)
      by (destruct more as [|[? ?] ?]; reflexivity).
    rewrite Hsc.
    set (cond := (_ || _ || _)).
    assert (Hcond : cond = true <->
      (counter_total ctr < 50 \/
       (nat2Q tc / nat2Q (counter_total ctr) < 7 # 10)%Q \/
       (2 <= List.length ((tg, tc) :: more) /\ tc - nth 0 (map snd more) 0%nat < 3))%nat).
    { unfold cond; rewrite !orb_true_iff, andb_true_iff, !Nat.ltb_lt, Qltb_iff.
      simpl List.length; split.
      - intros [[H|H]|[H1 H2]]; [left; exact H | right; left; exact H | right; right; split; lia].
      - intros [H|[H|[H1 H2]]]; [left; left; exact H | left; right; exact H | right; split; lia]. }
    rewrite <- Hcond.
    destruct cond; split; intros H; try reflexivity; try discriminate; congruence.
Qed.

(** C7: for every name of the global count table (total > 0), the name
    is in the audit iff total < 50, or top/total < 0.7, or at least two
    labels were observed and the two largest counts differ by less than
    3 (the counts sorted descending: [cs]); in particular {Male:1,
    Female:1} is flagged and {Male:1000, Female:2} is not. *)
Theorem C7_audit_flag_rule :
  map audit_first_name (audit counts_c7) = [u "a"] /\
  forall rows fname ctr cs,
    od_lookup str_eqb fname (fst (aggregate rows)) = Some ctr ->
    (0 < counter_total ctr)%nat ->
    Permutation cs (map snd ctr) -> Sorted desc cs ->
    (exists e, In e (audit (fst (aggregate rows))) /\ audit_first_name e = fname) <->
    (counter_total ctr < 50 \/
     (nat2Q (nth 0 cs 0%nat) / nat2Q (counter_total ctr) < 7 # 10)%Q \/
     (2 <= List.length ctr /\ nth 0 cs 0%nat - nth 1 cs 0%nat < 3))%nat.
Proof.
  split; [reflexivity|].
  intros rows fname ctr cs Hl Htot Hp Hs.
  rewrite <- (audit_row_flag fname ctr cs Htot Hp Hs).
  destruct (aggregate_global_lookup rows fname) as [Hnd _].
  set (cg := fst (aggregate rows)) in *.
  unfold audit; split.
  - intros [e [Hin Hname]].
    apply in_flat_map in Hin; destruct Hin as [[f c] [Hfc He]].
    destruct (audit_row f c) as [e'|] eqn:Ea; [|destruct He].
    destruct He as [<-|[]].
    rewrite (audit_row_name _ _ _ Ea) in Hname; subst f.
    rewrite (od_lookup_in str_eqb str_eqb_spec _ _ _ Hnd Hfc) in Hl.
    injection Hl; intros <-; rewrite Ea; discriminate.
  - destruct (audit_row fname ctr) as [e|] eqn:Ea; [intros _|congruence].
    exists e; split; [|exact (audit_row_name _ _ _ Ea)].
    apply in_flat_map; exists (fname, ctr); split.
    + exact (od_lookup_some_in str_eqb str_eqb_spec _ _ _ Hl).
    + rewrite Ea; left; reflexivity.
Qed.

Lemma C7_audit_flag_rule_witness :
  exists e, In e (audit (fst (aggregate ref_alex))) /\ audit_first_name e = u "alex".
Proof.
  apply (proj2 C7_audit_flag_rule ref_alex (u "alex") [(M, 1%nat); (F, 2%nat)] [2%nat; 1%nat]).
  - vm_compute; reflexivity.
  - apply Nat.ltb_lt; vm_compute; reflexivity.
  - apply perm_swap.
  - repeat constructor; unfold desc; lia.
  - left; apply Nat.ltb_lt; vm_compute; reflexivity.
Defined.

(* ================================================================== *)
(** * Further properties *)

Lemma Z_range_check (P : Z -> bool) lo n :
  forallb P (map (fun k => lo + Z.of_nat k) (seq 0 n)) = true ->
  forall c, lo <= c < lo + Z.of_nat n -> P c = true.
Proof.
  intros H c Hc; rewrite forallb_forall in H; apply H, in_map_iff.
  exists (Z.to_nat (c - lo)); split; [lia|]; apply in_seq; lia.
Qed.

Lemma valid_nonspace_range c : valid_char c = true -> is_space c = false -> 0 <= c <= 255.
Proof.
  intros H Hs; unfold valid_char in H; rewrite Hs, orb_false_r in H.
  repeat rewrite ?orb_true_iff, ?andb_true_iff, ?Z.leb_le, ?Z.eqb_eq in H; lia.
Qed.

Lemma lower_char_valid c :
  valid_char c = true -> is_space c = false ->
  valid_char (lower_char c) = true /\ is_space (lower_char c) = false /\
  lower_char (lower_char c) = lower_char c.
Proof.
  intros Hv Hs; pose proof (valid_nonspace_range c Hv Hs) as Hr.
  set (P := fun c => implb (valid_char c && negb (is_space c))
                      (valid_char (lower_char c) && negb (is_space (lower_char c)) &&
                       (lower_char (lower_char c) =? lower_char c))).
  assert (HP : P c = true) by (apply (Z_range_check P 0 256); [vm_compute; reflexivity | lia]).
  unfold P in HP; rewrite Hv, Hs in HP; simpl in HP.
  apply andb_true_iff in HP; destruct HP as [HP H3]; apply andb_true_iff in HP.
  destruct HP as [H1 H2]; apply negb_true_iff in H2; apply Z.eqb_eq in H3; auto.
Qed.

Lemma split_ws_aux_tokens cur s :
  (forall c, In c cur -> is_space c = false) ->
  forall t, In t (split_ws_aux cur s) ->
  t <> [] /\ forall c, In c t -> is_space c = false /\ (In c cur \/ In c s).
Proof.
  revert cur; induction s as [|c s IH]; intros cur Hcur t Ht; simpl in Ht.
  - destruct cur as [|x cur']; [destruct Ht|].
    destruct Ht as [<-|[]]; split.
    + intros E; apply (f_equal (@List.length Z)) in E; rewrite length_rev in E; discriminate.
    + intros c Hc; apply in_rev in Hc; auto.
  - destruct (is_space c) eqn:Ec.
    + assert (Hrest : forall t, In t (split_ws_aux [] s) ->
                t <> [] /\ forall c0, In c0 t -> is_space c0 = false /\ (In c0 cur \/ In c0 (c :: s))).
      { intros t' Ht'; destruct (IH [] (fun _ (H : In _ []) => match H with end) t' Ht') as [Hn Hc].
        split; [exact Hn|]; intros c0 Hc0; destruct (Hc c0 Hc0) as [Hs0 [[]|Hin]].
        split; [exact Hs0|right; right; exact Hin]. }
      destruct cur as [|x cur']; [apply Hrest, Ht|].
      destruct Ht as [<-|Ht]; [|apply Hrest, Ht].
      split.
      * intros E; apply (f_equal (@List.length Z)) in E; rewrite length_rev in E; discriminate.
      * intros c0 Hc0; apply in_rev in Hc0; auto.
    + assert (Hc' : forall x, In x (c :: cur) -> is_space x = false)
        by (intros x [<-|Hx]; auto).
      destruct (IH (c :: cur) Hc' t Ht) as [Hn Hc]; split; [exact Hn|].
      intros c0 Hc0; destruct (Hc c0 Hc0) as [Hs0 [[<-|Hin]|Hin]]; simpl; auto.
Qed.

Lemma nonempty_tokens_chars s t :
  In t (nonempty_tokens (filter valid_char s)) ->
  t <> [] /\ Forall (fun c => valid_char c = true /\ is_space c = false) t.
Proof.
  unfold nonempty_tokens, py_split; intros Ht; apply filter_In in Ht; destruct Ht as [Ht _].
  destruct (split_ws_aux_tokens [] _ (fun _ (H : In _ []) => match H with end) t Ht) as [Hn Hc].
  split; [exact Hn|]; apply Forall_forall; intros c Hin.
  destruct (Hc c Hin) as [Hs [[]|Hf]]; apply filter_In in Hf; tauto.
Qed.

Lemma py_lower_shape t :
  Forall (fun c => valid_char c = true /\ is_space c = false) t ->
  Forall first_name_char (py_lower t).
Proof.
  intros H; unfold py_lower; apply Forall_map; eapply Forall_impl; [|exact H].
  intros c [Hv Hs]; unfold first_name_char; apply lower_char_valid; assumption.
Qed.

Lemma first_of_tokens_shape s :
  let r := first_of_tokens (nonempty_tokens (filter valid_char s)) in
  r = [] \/ (2 <= List.length r)%nat /\ Forall first_name_char r.
Proof.
  cbv zeta.
  pose proof (nonempty_tokens_chars s) as Hch.
  destruct (nonempty_tokens (filter valid_char s)) as [|t0 rest] eqn:E; [left; reflexivity|].
  simpl. destruct (Nat.eqb (List.length t0) 1) eqn:E1.
  - destruct rest as [|t1 rest']; [left; reflexivity|].
    destruct (Nat.ltb 1 (List.length t1)) eqn:E2; [|left; reflexivity].
    right; apply Nat.ltb_lt in E2; unfold py_lower; rewrite length_map; split; [lia|].
    apply py_lower_shape, (Hch t1); right; left; reflexivity.
  - right. destruct (Hch t0 (or_introl eq_refl)) as [Hn Hf].
    unfold py_lower; rewrite length_map; split.
    + destruct t0 as [|a [|b t0']]; [congruence|discriminate|simpl; lia].
    + apply py_lower_shape, Hf.
Qed.


Lemma lstrip_decomp s : exists ws, all_space ws /\ s = ws ++ lstrip s.
Proof.
  induction s as [|c s IH]; simpl; [exists []; split; [constructor|reflexivity]|].
  destruct (is_space c) eqn:E.
  - destruct IH as [ws [Hw He]]; exists (c :: ws); split; [constructor; assumption|].
    simpl; f_equal; exact He.
  - exists []; split; [constructor|reflexivity].
Qed.

Lemma py_strip_decomp s :
  exists ws1 ws2, all_space ws1 /\ all_space ws2 /\ s = ws1 ++ py_strip s ++ ws2.
Proof.
  destruct (lstrip_decomp s) as [ws1 [H1 E1]].
  destruct (lstrip_decomp (rev (lstrip s))) as [ws2 [H2 E2]].
  exists ws1, (rev ws2); split; [exact H1|split].
  - apply Forall_rev, H2.
  - unfold py_strip; rewrite E1 at 1; f_equal.
    rewrite <- rev_app_distr, <- E2, rev_involutive; reflexivity.
Qed.

Lemma filter_all_space ws : all_space ws -> filter valid_char ws = ws.
Proof.
  induction 1 as [|c ws Hc _ IH]; simpl; [reflexivity|].
  unfold valid_char at 1; rewrite Hc, !orb_true_r; f_equal; exact IH.
Qed.

Lemma split_all_space ws : all_space ws -> split_ws_aux [] ws = [].
Proof. induction 1 as [|c ws Hc _ IH]; simpl; [reflexivity|]; rewrite Hc; exact IH. Qed.

Lemma split_space_l ws y : all_space ws -> split_ws_aux [] (ws ++ y) = split_ws_aux [] y.
Proof. induction 1 as [|c ws Hc _ IH]; simpl; [reflexivity|]; rewrite Hc; exact IH. Qed.

Lemma split_space_r cur y ws :
  all_space ws -> split_ws_aux cur (y ++ ws) = split_ws_aux cur y.
Proof.
  intros Hw; revert cur; induction y as [|c y IH]; intros cur; simpl.
  - destruct Hw as [|w ws Hc Hws]; [reflexivity|]; simpl; rewrite Hc, (split_all_space _ Hws).
    destruct cur; reflexivity.
  - destruct (is_space c); [destruct cur; rewrite IH; reflexivity|apply IH].
Qed.

Lemma split_filter_strip s :
  py_split (filter valid_char (py_strip s)) = py_split (filter valid_char s).
Proof.
  destruct (py_strip_decomp s) as [ws1 [ws2 [H1 [H2 E]]]].
  rewrite E at 2; unfold py_split.
  rewrite !filter_app, (filter_all_space _ H1), (filter_all_space _ H2).
  rewrite split_space_l by exact H1; rewrite split_space_r by exact H2; reflexivity.
Qed.

Lemma get_first_name_tokens s :
  get_first_name s = first_of_tokens (nonempty_tokens (filter valid_char s)).
Proof.
  destruct s as [|c s']; [reflexivity|].
  unfold get_first_name, nonempty_tokens.
  rewrite split_filter_strip; reflexivity.
Qed.


Lemma split_nospace cur y :
  Forall (fun c => is_space c = false) y ->
  split_ws_aux cur y = split_ws_aux (rev y ++ cur) [].
Proof.
  intros H; revert cur; induction H as [|c y Hc _ IH]; intros cur; simpl; [reflexivity|].
  rewrite Hc, IH, <- app_assoc; reflexivity.
Qed.

Lemma filter_valid_id r : Forall (fun c => valid_char c = true) r -> filter valid_char r = r.
Proof. induction 1 as [|c r Hc _ IH]; simpl; [reflexivity|]; rewrite Hc, IH; reflexivity. Qed.

Lemma filter_valid_idem s : filter valid_char (filter valid_char s) = filter valid_char s.
Proof.
  apply filter_valid_id, Forall_forall; intros c Hc; apply filter_In in Hc; tauto.
Qed.

(** [get_first_name] returns either the empty string or a string of at
    least two characters, each in the accepted class, not whitespace and
    already lowercase. *)
Theorem get_first_name_shape s :
  get_first_name s = [] \/
  (2 <= List.length (get_first_name s))%nat /\
  Forall (fun c => valid_char c = true /\ is_space c = false /\ lower_char c = c)
         (get_first_name s).
Proof. rewrite get_first_name_tokens; apply first_of_tokens_shape. Qed.

(** Applying [get_first_name] to its own result changes nothing. *)
Theorem get_first_name_idempotent s :
  get_first_name (get_first_name s) = get_first_name s.
Proof.
  destruct (get_first_name_shape s) as [E|[Hl Hf]]; [rewrite E; reflexivity|].
  set (r := get_first_name s) in *.
  rewrite get_first_name_tokens.
  rewrite filter_valid_id by (eapply Forall_impl; [|exact Hf]; simpl; tauto).
  unfold nonempty_tokens, py_split.
  rewrite split_nospace by (eapply Forall_impl; [|exact Hf]; simpl; tauto).
  rewrite app_nil_r.
  destruct (rev r) as [|x rr] eqn:Er.
  { apply (f_equal (@List.length Z)) in Er; rewrite length_rev in Er; simpl in Er; lia. }
  change (split_ws_aux (x :: rr) []) with [rev (x :: rr)]; rewrite <- Er, rev_involutive.
  assert (Hne : str_eqb r [] = false).
  { destruct (str_eqb r []) eqn:E; [apply str_eqb_spec in E; rewrite E in Hl; simpl in Hl; lia|reflexivity]. }
  simpl filter; rewrite Hne; simpl.
  destruct (Nat.eqb (List.length r) 1) eqn:E1; [apply Nat.eqb_eq in E1; lia|].
  unfold py_lower; rewrite <- (map_id r) at 2; apply map_ext_in.
  intros c Hc; rewrite Forall_forall in Hf; apply Hf, Hc.
Qed.

(** Removing the characters outside [_valid_chars_re]'s class first does
    not change the result. *)
Theorem get_first_name_ignores_invalid s :
  get_first_name (filter valid_char s) = get_first_name s.
Proof. rewrite !get_first_name_tokens, filter_valid_idem; reflexivity. Qed.


Lemma lstrip_snoc x c : is_space c = false -> lstrip (x ++ [c]) = lstrip x ++ [c].
Proof.
  intros Hc; induction x as [|a x IH]; simpl; [rewrite Hc; reflexivity|].
  destruct (is_space a); [exact IH|reflexivity].
Qed.

Lemma lstrip_head s c t : lstrip s = c :: t -> is_space c = false.
Proof.
  induction s as [|a s IH]; simpl; [discriminate|].
  destruct (is_space a) eqn:E; [exact IH|intros H; injection H; intros _ <-; exact E].
Qed.

Lemma py_strip_head s :
  match lstrip s with
  | [] => py_strip s = []
  | c :: _ => exists t', py_strip s = c :: t'
  end.
Proof.
  unfold py_strip; destruct (lstrip s) as [|c t] eqn:E; [reflexivity|].
  simpl; rewrite (lstrip_snoc _ _ (lstrip_head _ _ _ E)), rev_app_distr.
  eexists; reflexivity.
Qed.

Lemma lower_char_eqb c k :
  (k = 109 \/ k = 102) ->
  (lower_char c =? k) = (c =? k - 32) || (c =? k).
Proof.
  intros Hk; unfold lower_char.
  destruct (((65 <=? c) && (c <=? 90)) || ((192 <=? c) && (c <=? 214)) ||
            ((216 <=? c) && (c <=? 222))) eqn:E;
  repeat rewrite ?orb_true_iff, ?orb_false_iff, ?andb_true_iff, ?andb_false_iff,
                 ?Z.leb_le, ?Z.leb_gt in E;
  destruct (Z.eqb_spec (c + 32) k), (Z.eqb_spec c k), (Z.eqb_spec c (k - 32)), (Z.eqb_spec c k);
  simpl; first [reflexivity | exfalso; lia].
Qed.

(** [normalize_gender] depends only on the first non-whitespace
    character: m/M gives M, f/F gives F, anything else (or none) Unknown. *)
Theorem normalize_gender_first_char g :
  normalize_gender g =
  match lstrip g with
  | c :: _ => if (c =? 77) || (c =? 109) then M
              else if (c =? 70) || (c =? 102) then F else Unknown
  | [] => Unknown
  end.
Proof.
  pose proof (py_strip_head g) as H.
  destruct g as [|a g']; [reflexivity|].
  unfold normalize_gender.
  destruct (lstrip (a :: g')) as [|c t].
  - rewrite H; reflexivity.
  - destruct H as [t' ->]; simpl.
    rewrite (lower_char_eqb c 109), (lower_char_eqb c 102) by lia; reflexivity.
Qed.


Lemma max_key_spec {A} (key : A -> nat) best l :
  let r := max_key key best l in
  exists pre post, best :: l = pre ++ r :: post /\
    Forall (fun c => (key c < key r)%nat) pre /\
    Forall (fun c => (key c <= key r)%nat) post.
Proof.
  revert best; induction l as [|x t IH]; intros best; simpl.
  - exists [], []; repeat split; constructor.
  - destruct (Nat.ltb (key best) (key x)) eqn:E.
    + apply Nat.ltb_lt in E.
      destruct (IH x) as [pre [post [He [Hp Hq]]]].
      revert He Hp Hq; generalize (max_key key x t) as r; intros r He Hp Hq.
      assert (Hx : (key x <= key r)%nat).
      { destruct pre as [|p pre']; simpl in He; injection He; intros; subst.
        - lia.
        - inversion Hp; lia. }
      exists (best :: pre), post; split; [rewrite He; reflexivity|split; [|exact Hq]].
      constructor; [lia|exact Hp].
    + apply Nat.ltb_ge in E.
      destruct (IH best) as [pre [post [He [Hp Hq]]]].
      revert He Hp Hq; generalize (max_key key best t) as r; intros r He Hp Hq.
      destruct pre as [|p pre']; simpl in He; injection He; intros Ht Hb.
      * exists [], (x :: post); split; [rewrite Ht, <- Hb; reflexivity|split; [constructor|]].
        constructor; [rewrite <- Hb; exact E|exact Hq].
      * subst p. exists (best :: x :: pre'), post; split; [rewrite Ht; reflexivity|split; [|exact Hq]].
        inversion Hp; subst; constructor; [assumption|constructor; [lia|assumption]].
Qed.

(** [detect_delimiter] returns the candidate occurring most often in the
    sample; candidates listed before it occur strictly less often, so ties
    go to the earlier of [, \t ; |]. *)
Theorem detect_delimiter_max text :
  let cnt := count_occ Z.eq_dec (firstn sample_size (universal_newlines text)) in
  let d := detect_delimiter text in
  exists pre post, delim_candidates = pre ++ d :: post /\
    Forall (fun c => (cnt c < cnt d)%nat) pre /\
    Forall (fun c => (cnt c <= cnt d)%nat) post.
Proof. apply max_key_spec. Qed.

(** Counting with [d[k] += 1] in a dict. *)
Section Counting.
Context {K : Type} (eqb : K -> K -> bool).
Hypothesis eqb_spec : forall a b, eqb a b = true <-> a = b.

Lemma od_count_lookup (xs : list K) (d : list (K * nat)) k :
  od_lookup eqb k (fold_left (fun d x => od_update eqb x incr_opt d) xs d) =
  let n := List.length (filter (eqb k) xs) in
  match od_lookup eqb k d with
  | Some v => Some (v + n)%nat
  | None => if Nat.eqb n 0 then None else Some n
  end.
Proof.
  revert d; induction xs as [|x xs IH]; intros d; simpl.
  - destruct (od_lookup eqb k d); [rewrite Nat.add_0_r|]; reflexivity.
  - rewrite IH, (od_lookup_update eqb eqb_spec).
    destruct (eqb k x) eqn:E.
    + apply eqb_spec in E; subst x; simpl.
      destruct (od_lookup eqb k d); unfold incr_opt; f_equal; lia.
    + simpl; reflexivity.
Qed.

Lemma od_update_sum k (d : list (K * nat)) :
  fold_right Nat.add 0%nat (map snd (od_update eqb k incr_opt d)) =
  S (fold_right Nat.add 0%nat (map snd d)).
Proof.
  induction d as [|[k' v] t IH]; simpl; [reflexivity|].
  destruct (eqb k k'); simpl; [reflexivity|rewrite IH; lia].
Qed.

Lemma od_count_sum (xs : list K) (d : list (K * nat)) :
  fold_right Nat.add 0%nat (map snd (fold_left (fun d x => od_update eqb x incr_opt d) xs d)) =
  (fold_right Nat.add 0%nat (map snd d) + List.length xs)%nat.
Proof.
  revert d; induction xs as [|x xs IH]; intros d; simpl; [lia|].
  rewrite IH, od_update_sum; lia.
Qed.
End Counting.

Lemma source_eqb_spec a b : source_eqb a b = true <-> a = b.
Proof. destruct a, b; simpl; split; congruence. Qed.

Lemma source_str_eqb a b : str_eqb (source_str a) (source_str b) = source_eqb a b.
Proof. destruct a, b; reflexivity. Qed.

Lemma process_input_body m mc gg rows :
  tl (process_input m mc gg rows) = map (output_row m mc gg) (filter is_data_row (tl rows)).
Proof. destruct rows as [|[|c r] rest]; reflexivity. Qed.

Lemma output_row_last m mc gg row :
  last (output_row m mc gg row) [] = source_str (snd (decide m mc gg row)).
Proof.
  unfold output_row; destruct (decide m mc gg row) as [[g c] s].
  change [label_str g; format3 c; source_str s] with ([label_str g; format3 c] ++ [source_str s]).
  rewrite app_assoc, last_last; reflexivity.
Qed.

Lemma run_stats_fold m mc gg rows :
  run_stats m mc gg rows =
  (List.length (filter is_data_row (tl rows)),
   fold_left (fun d x => od_update source_eqb x incr_opt d)
             (map (fun row => snd (decide m mc gg row)) (filter is_data_row (tl rows))) []).
Proof.
  unfold run_stats.
  generalize (filter is_data_row (tl rows)) as D.
  assert (H : forall D w st,
    fold_left (fun (st : nat * list (source * nat)) row =>
               let '(written, stats) := st in
               let '(_, _, src) := decide m mc gg row in
               (S written,
                od_update source_eqb src
                  (fun o => match o with Some n => S n | None => 1%nat end) stats)) D (w, st) =
    ((w + List.length D)%nat,
     fold_left (fun d x => od_update source_eqb x incr_opt d)
               (map (fun row => snd (decide m mc gg row)) D) st)).
  { induction D as [|row D IH]; intros w st; simpl; [rewrite Nat.add_0_r; reflexivity|].
    destruct (decide m mc gg row) as [[g c] s]; simpl; rewrite IH; f_equal; lia. }
  intros D; rewrite H; reflexivity.
Qed.

(** [written] is the number of data rows written; the [stats] values sum
    to it, and [stats[src]] is present exactly when some written row has
    GenderSource [src], and then counts those rows. *)
Theorem run_stats_breakdown m mc gg rows :
  let outs := tl (process_input m mc gg rows) in
  let '(written, stats) := run_stats m mc gg rows in
  written = List.length outs /\
  fold_right Nat.add 0%nat (map snd stats) = written /\
  forall src, od_lookup source_eqb src stats =
    let n := List.length (filter (fun o => str_eqb (last o []) (source_str src)) outs) in
    if Nat.eqb n 0 then None else Some n.
Proof.
  cbv zeta; rewrite run_stats_fold, process_input_body.
  set (D := filter is_data_row (tl rows)).
  split; [rewrite length_map; reflexivity|split].
  - rewrite (od_count_sum source_eqb); simpl; rewrite length_map; reflexivity.
  - intros src; rewrite (od_count_lookup source_eqb source_eqb_spec); simpl.
    assert (Hn : List.length (filter (source_eqb src) (map (fun row => snd (decide m mc gg row)) D)) =
                 List.length (filter (fun o => str_eqb (last o []) (source_str src))
                                     (map (output_row m mc gg) D))).
    { induction D as [|row D IH]; simpl; [reflexivity|].
      rewrite output_row_last, source_str_eqb.
      destruct (source_eqb src (snd (decide m mc gg row))) eqn:E1;
      destruct (source_eqb (snd (decide m mc gg row)) src) eqn:E2; simpl; rewrite ?IH; try reflexivity;
      apply source_eqb_spec in E1 || apply source_eqb_spec in E2; subst;
      [rewrite (proj2 (source_eqb_spec _ _) eq_refl) in E2 | rewrite (proj2 (source_eqb_spec _ _) eq_refl) in E1];
      discriminate. }
    rewrite Hn; reflexivity.
Qed.


Lemma hd_insert_desc x acc :
  hd_error (insert_desc x acc) =
  Some (match hd_error acc with
        | None => x
        | Some y => if Nat.ltb (snd y) (snd x) then x else y
        end).
Proof.
  destruct acc as [|y t]; simpl; [reflexivity|].
  destruct (Nat.leb_spec (snd x) (snd y)), (Nat.ltb_spec (snd y) (snd x));
    simpl; first [reflexivity | lia].
Qed.

Lemma most_common_head ctr : most_common1 ctr = hd_error (most_common ctr).
Proof.
  unfold most_common.
  assert (H : forall l acc,
    hd_error (fold_left (fun acc x => insert_desc x acc) l acc) =
    match hd_error acc with
    | None => match l with [] => None | x :: t => Some (max_first x t) end
    | Some b => Some (max_first b l)
    end).
  { induction l as [|x t IH]; intros acc; simpl.
    - destruct (hd_error acc); reflexivity.
    - rewrite IH, hd_insert_desc; destruct (hd_error acc); reflexivity. }
  rewrite H; destruct ctr; reflexivity.
Qed.

Lemma counter_total_of ls : counter_total (counter_of ls) = List.length ls.
Proof.
  induction ls as [|g ls IH] using rev_ind; [reflexivity|].
  rewrite counter_of_snoc, counter_total_incr, IH, length_app; simpl; lia.
Qed.

Lemma mapping_lookup_labels rows fname :
  od_lookup str_eqb fname (fst (mappings rows)) =
  match labels_for fname (ref_observations rows) with
  | [] => None
  | ls => entry_of (counter_of ls)
  end.
Proof.
  destruct (aggregate_global_lookup rows fname) as [Hnd Hl].
  rewrite fst_mappings, (build_mapping_lookup _ _ Hnd), Hl.
  destruct (labels_for fname (ref_observations rows)); reflexivity.
Qed.

(** [mapping] has an entry for [fname] iff some reference row was counted
    for it, and the entry's total is the number of such rows. *)
Theorem mapping_total_counts rows fname :
  let ls := labels_for fname (ref_observations rows) in
  match od_lookup str_eqb fname (fst (mappings rows)) with
  | None => ls = []
  | Some (_, _, t) => ls <> [] /\ t = List.length ls
  end.
Proof.
  cbv zeta; rewrite mapping_lookup_labels.
  destruct (labels_for fname (ref_observations rows)) as [|g ls] eqn:E; [reflexivity|].
  destruct (entry_of_some (counter_of (g :: ls))) as [g' [c He]].
  { rewrite counter_total_of; discriminate. }
  rewrite He, counter_total_of; split; [discriminate|reflexivity].
Qed.

Lemma audit_row_entry f ctr e :
  audit_row f ctr = Some e ->
  let '(f', tg, tc, sc, tot, conf) := e in
  entry_of ctr = Some (tg,
    if Nat.ltb tot MIN_COUNT_FOR_CONFIDENCE && Qltb conf 1 then (conf * (7 # 10))%Q else conf,
    tot).
Proof.
  unfold audit_row, entry_of.
  destruct (Nat.eqb (counter_total ctr) 0); [discriminate|].
  rewrite most_common_head.
  destruct (most_common ctr) as [|[tg tc] more]; [discriminate|]; simpl.
  destruct (_ || _ || _); [|discriminate].
  intros H; injection H; intros <-; reflexivity.
Qed.

(** An audit row for a name carries the same top gender and total as the
    name's [mapping] entry, whose confidence is the audit confidence,
    times 0.7 when the low-sample penalty applies. *)
Theorem audit_agrees_with_mapping rows f tg tc sc tot conf :
  In (f, tg, tc, sc, tot, conf) (audit (fst (aggregate rows))) ->
  od_lookup str_eqb f (fst (mappings rows)) =
  Some (tg,
        if Nat.ltb tot MIN_COUNT_FOR_CONFIDENCE && Qltb conf 1 then (conf * (7 # 10))%Q else conf,
        tot).
Proof.
  intros Hin; unfold audit in Hin.
  apply in_flat_map in Hin; destruct Hin as [[f0 ctr] [Hfc He]].
  destruct (audit_row f0 ctr) as [e|] eqn:Ea; [|destruct He].
  destruct He as [He|[]]; subst e.
  pose proof (audit_row_name _ _ _ Ea) as Hn; simpl in Hn; subst f0.
  destruct (aggregate_global_lookup rows f) as [Hnd _].
  rewrite fst_mappings, (build_mapping_lookup _ _ Hnd),
          (od_lookup_in str_eqb str_eqb_spec _ _ _ Hnd Hfc).
  exact (audit_row_entry _ _ _ Ea).
Qed.

Lemma audit_agrees_with_mapping_witness :
  In (u "alex", F, 2%nat, 1%nat, 3%nat, 2 # 3)%Q (audit (fst (aggregate ref_alex))) /\
  od_lookup str_eqb (u "alex") (fst (mappings ref_alex)) = Some (F, (2 # 3) * (7 # 10), 3%nat)%Q.
Proof.
  split; [vm_compute; left; reflexivity|].
  apply (audit_agrees_with_mapping ref_alex (u "alex") F 2%nat 1%nat 3%nat (2 # 3)%Q).
  vm_compute; left; reflexivity.
Defined.


Ltac qnat := unfold nat2Q, Qdiv, Qmult, Qinv, Qlt, Qle, Qeq, inject_Z; simpl;
  rewrite ?Pos2Z.inj_mul, ?Zpos_P_of_succ_nat; nia.

Lemma ratio_eq_1 a b : (0 < b)%nat -> (nat2Q a / nat2Q b == 1)%Q <-> a = b.
Proof.
  intros Hb; destruct b as [|b]; [lia|].
  split; intros H.
  - revert H; unfold nat2Q, Qdiv, Qmult, Qinv, Qeq, inject_Z; simpl.
    rewrite ?Pos2Z.inj_mul, ?Zpos_P_of_succ_nat; lia.
  - subst a; qnat.
Qed.

Lemma ratio_lt_1 a b : (a < b)%nat -> (nat2Q a / nat2Q b < 1)%Q.
Proof. intros H; destruct b as [|b]; [lia|]; qnat. Qed.

Lemma ratio_penalised a b :
  (a < b)%nat -> (b < 5)%nat -> (nat2Q a / nat2Q b * (7 # 10) < 65 # 100)%Q.
Proof. intros H1 H2; destruct b as [|b]; [lia|]; qnat. Qed.

Lemma ratio_penalised_lt_1 a b : (a < b)%nat -> (nat2Q a / nat2Q b * (7 # 10) < 1)%Q.
Proof. intros H; destruct b as [|b]; [lia|]; qnat. Qed.

Lemma count_occ_all (ls : list label) g :
  count_occ label_eq_dec ls g = List.length ls <-> Forall (eq g) ls.
Proof.
  induction ls as [|x ls IH]; simpl; [split; constructor|].
  destruct (label_eq_dec x g) as [->|Hne].
  - split; intros Hc; [constructor; [reflexivity|apply IH; lia]|].
    inversion Hc; subst; f_equal; apply IH; assumption.
  - pose proof (count_occ_bound label_eq_dec g ls) as Hbd; split; intros H; [lia|].
    inversion H; congruence.
Qed.

(** A [mapping] confidence is 1 iff every counted reference row of the
    name has the top label; below [MIN_COUNT_FOR_CONFIDENCE] rows, only
    such a unanimous entry reaches [CONF_THRESHOLD]. *)
Theorem mapping_confidence_one rows fname g c t :
  od_lookup str_eqb fname (fst (mappings rows)) = Some (g, c, t) ->
  ((c == 1)%Q <-> Forall (eq g) (labels_for fname (ref_observations rows))) /\
  ((t < MIN_COUNT_FOR_CONFIDENCE)%nat -> ((CONF_THRESHOLD <= c)%Q <-> (c == 1)%Q)).
Proof.
  rewrite mapping_lookup_labels.
  destruct (labels_for fname (ref_observations rows)) as [|l0 ls'] eqn:El; [discriminate|].
  remember (l0 :: ls') as ls eqn:Els.
  intros He.
  assert (Hlen : (0 < List.length ls)%nat) by (rewrite Els; simpl; lia).
  unfold entry_of in He; rewrite counter_total_of in He.
  destruct (Nat.eqb (List.length ls) 0); [discriminate|].
  destruct (most_common1 (counter_of ls)) as [[tg top]|] eqn:Em; [|discriminate].
  destruct (most_common1_in _ _ Em) as [Hin _].
  destruct (counter_of_in _ _ _ Hin) as [Htop _].
  pose proof (count_occ_bound label_eq_dec tg ls) as Hb.
  injection He; intros Ht Hc Hg; subst g t; cbv zeta in Hc.
  rewrite <- count_occ_all, <- Htop.
  destruct (Nat.eq_dec top (List.length ls)) as [Heq|Hlt].
  - assert (Hr : (nat2Q top / nat2Q (List.length ls) == 1)%Q) by (apply ratio_eq_1; lia).
    assert (Hq : Qltb (nat2Q top / nat2Q (List.length ls)) 1 = false).
    { apply not_true_iff_false; rewrite Qltb_iff; intros H; rewrite Hr in H; discriminate. }
    rewrite Hq, andb_false_r in Hc; subst c.
    split; [split; [intros _; exact Heq|intros _; exact Hr]|].
    intros _; split; [intros _; exact Hr|intros _; rewrite Hr; discriminate].
  - assert (Hlt' : (top < List.length ls)%nat) by (rewrite Htop in *; lia).
    pose proof (ratio_lt_1 _ _ Hlt') as H1.
    assert (Hq : Qltb (nat2Q top / nat2Q (List.length ls)) 1 = true) by (apply Qltb_iff; exact H1).
    rewrite Hq, andb_true_r in Hc.
    assert (Hne : ~ (c == 1)%Q).
    { intros H; subst c; destruct (Nat.ltb _ _).
      - apply (Qlt_irrefl 1); rewrite <- H at 1; exact (ratio_penalised_lt_1 _ _ Hlt').
      - apply (Qlt_irrefl 1); rewrite <- H at 1; exact H1. }
    split; [split; [intros H; contradiction|intros H; lia]|].
    intros Hsmall; split; [|intros H; contradiction].
    intros Hthr; exfalso.
    apply Nat.ltb_lt in Hsmall; rewrite Hsmall in Hc; subst c.
    apply (Qlt_not_le _ _ (ratio_penalised _ _ Hlt' (proj1 (Nat.ltb_lt _ _) Hsmall)) Hthr).
Qed.


Lemma step_mapping_keep m mc country fname s :
  snd (step_mapping m mc country fname s) = unknown -> step_mapping m mc country fname s = s.
Proof.
  unfold step_mapping; destruct fname; [auto|].
  destruct (od_lookup pair_eqb _ mc) as [[[g c] t]|];
  [|destruct (od_lookup str_eqb _ m) as [[[g c] t]|]];
  try destruct (Qle_bool CONF_THRESHOLD c); simpl; auto; discriminate.
Qed.

Lemma step_gg_keep m gg fname s :
  snd (step_gg m gg fname s) = unknown -> step_gg m gg fname s = s.
Proof.
  unfold step_gg; destruct (is_unknown s && negb (str_eqb fname [])); [|auto].
  destruct (gg_guess gg fname) as [gg_g gg_conf].
  destruct (od_lookup str_eqb fname m) as [[[g c] t]|];
  repeat match goal with |- context [if ?b then _ else _] => destruct b end;
  simpl; auto; discriminate.
Qed.

Lemma step_final_keep m fname s :
  snd (step_final m fname s) = unknown -> step_final m fname s = s.
Proof.
  unfold step_final; destruct (is_unknown s && negb (str_eqb fname [])); [|auto].
  destruct (od_lookup str_eqb fname m) as [[[g c] t]|]; simpl; auto; discriminate.
Qed.

Lemma Qle_bool_false a b : Qle_bool a b = false <-> (b < a)%Q.
Proof.
  split; intros H.
  - apply Qnot_le_lt; intros H'; apply Qle_bool_iff in H'; congruence.
  - apply not_true_iff_false; rewrite Qle_bool_iff; intros H'; exact (Qlt_not_le _ _ H H').
Qed.

(** GenderSource is unknown iff the decision is (Unknown, 0, unknown),
    which happens iff the first name is empty, or it has no [mapping]
    entry, no country entry at or above the threshold, and no detector or
    a detector answering unknown. *)
Theorem decide_unknown_source m mc gg row :
  let fname := get_first_name (row_name row) in
  (snd (decide m mc gg row) = unknown <-> decide m mc gg row = undecided) /\
  (decide m mc gg row = undecided <->
   fname = [] \/
   (od_lookup str_eqb fname m = None /\
    (forall g c t, od_lookup pair_eqb (row_country row, fname) mc = Some (g, c, t) ->
                   (c < CONF_THRESHOLD)%Q) /\
    match gg with None => True | Some d => d fname = unknown_cat end)).
Proof.
  cbv zeta; unfold decide; cbv zeta.
  generalize (get_first_name (row_name row)) as fname.
  generalize (row_country row) as country.
  intros country fname; split.
  - split; [|intros ->; reflexivity].
    intros H.
    rewrite (step_final_keep _ _ _ H) in H |- *.
    rewrite (step_gg_keep _ _ _ _ H) in H |- *.
    exact (step_mapping_keep _ _ _ _ _ H).
  - destruct fname as [|a f]; [split; [intros _; left; reflexivity|intros _; reflexivity]|].
    split.
    + intros H; right.
      assert (Hf : step_gg m gg (a :: f) (step_mapping m mc country (a :: f) undecided) = undecided).
      { refine (eq_trans (eq_sym (step_final_keep m (a :: f) _ _)) H); rewrite H; reflexivity. }
      assert (Hm : step_mapping m mc country (a :: f) undecided = undecided).
      { refine (eq_trans (eq_sym (step_gg_keep m gg (a :: f) _ _)) Hf); rewrite Hf; reflexivity. }
      assert (Hl : od_lookup str_eqb (a :: f) m = None).
      { destruct (od_lookup str_eqb (a :: f) m) as [[[g c] t]|] eqn:E; [|reflexivity].
        rewrite Hf in H; unfold step_final in H; simpl in H; rewrite E in H; discriminate. }
      split; [exact Hl|split].
      * intros g c t Hc; unfold step_mapping in Hm; rewrite Hc in Hm.
        destruct (Qle_bool CONF_THRESHOLD c) eqn:E; [discriminate|apply Qle_bool_false, E].
      * rewrite Hm in Hf; unfold step_gg in Hf; simpl in Hf; rewrite Hl in Hf.
        destruct gg as [d|]; [|exact I].
        simpl in Hf; destruct (d (a :: f)); simpl in Hf; try discriminate; reflexivity.
    + intros [H|[Hl [Hc Hd]]]; [discriminate|].
      assert (Hm : step_mapping m mc country (a :: f) undecided = undecided).
      { unfold step_mapping.
        destruct (od_lookup _ _ mc) as [[[g c] t]|] eqn:E.
        - rewrite (proj2 (Qle_bool_false _ _) (Hc g c t eq_refl)); reflexivity.
        - rewrite Hl; reflexivity. }
      rewrite Hm; unfold step_gg, step_final; simpl; rewrite Hl.
      destruct gg as [d|]; simpl; [rewrite Hd|]; reflexivity.
Qed.


Lemma lookup_unit {K} (eqb : K -> K -> bool) k (d : list (K * entry)) g c t :
  Forall (fun '(_, (_, c, _)) => (0 <= c <= 1)%Q) d ->
  od_lookup eqb k d = Some (g, c, t) -> (0 <= c <= 1)%Q.
Proof.
  intros Hf; induction Hf as [|[k' [[g' c'] t']] d Hx _ IH]; simpl; [discriminate|].
  destruct (eqb k k'); [intros H; injection H; intros; subst; exact Hx|exact IH].
Qed.

Lemma gg_guess_unit gg fname : let '(_, c) := gg_guess gg fname in (0 <= c <= 1)%Q.
Proof.
  unfold gg_guess; destruct gg as [d|]; [destruct fname; [|destruct (d _)]|];
  split; unfold Qle; simpl; lia.
Qed.

Lemma decide_unit (m : global_mapping) (mc : scoped_mapping) gg row :
  Forall (fun '(_, (_, c, _)) => (0 <= c <= 1)%Q) m ->
  Forall (fun '(_, (_, c, _)) => (0 <= c <= 1)%Q) mc ->
  unit_conf (decide m mc gg row).
Proof.
  intros Hm Hmc; unfold decide; cbv zeta.
  generalize (get_first_name (row_name row)) as fname.
  generalize (row_country row) as country.
  intros country fname.
  assert (H0 : unit_conf undecided) by (split; unfold Qle; simpl; lia).
  assert (H1 : forall s, unit_conf s -> unit_conf (step_mapping m mc country fname s)).
  { intros s Hs; unfold step_mapping; destruct fname; [exact Hs|].
    destruct (od_lookup pair_eqb _ mc) as [[[g c] t]|] eqn:E.
    - destruct (Qle_bool _ _); [exact (lookup_unit _ _ _ _ _ _ Hmc E)|exact Hs].
    - destruct (od_lookup str_eqb _ m) as [[[g c] t]|] eqn:E'; [|exact Hs].
      destruct (Qle_bool _ _); [exact (lookup_unit _ _ _ _ _ _ Hm E')|exact Hs]. }
  assert (H2 : forall s, unit_conf s -> unit_conf (step_gg m gg fname s)).
  { intros s Hs; unfold step_gg.
    destruct (is_unknown s && negb (str_eqb fname [])); [|exact Hs].
    pose proof (gg_guess_unit gg fname) as Hg.
    destruct (gg_guess gg fname) as [gg_g gg_conf].
    destruct (od_lookup str_eqb fname m) as [[[g c] t]|] eqn:E.
    - pose proof (lookup_unit _ _ _ _ _ _ Hm E) as Hc.
      repeat match goal with |- context [if ?b then _ else _] => destruct b end; assumption.
    - repeat match goal with |- context [if ?b then _ else _] => destruct b end; assumption. }
  assert (H3 : forall s, unit_conf s -> unit_conf (step_final m fname s)).
  { intros s Hs; unfold step_final.
    destruct (is_unknown s && negb (str_eqb fname [])); [|exact Hs].
    destruct (od_lookup str_eqb fname m) as [[[g c] t]|] eqn:E; [|exact Hs].
    exact (lookup_unit _ _ _ _ _ _ Hm E). }
  apply H3, H2, H1, H0.
Qed.

Lemma mappings_unit rows :
  Forall (fun '(_, (_, c, _)) => (0 <= c <= 1)%Q) (fst (mappings rows)) /\
  Forall (fun '(_, (_, c, _)) => (0 <= c <= 1)%Q) (snd (mappings rows)).
Proof.
  unfold mappings; destruct (aggregate rows) as [cg cc]; simpl.
  split; apply Forall_forall; intros [k [[g c] t]] Hin.
  - destruct (build_mapping_in _ _ _ Hin) as [ctr [_ He]].
    exact (entry_of_unit _ _ _ _ He).
  - destruct (build_mapping_country_in _ _ _ Hin) as [d [ctr [_ [_ He]]]].
    exact (entry_of_unit _ _ _ _ He).
Qed.

(** Rounding [x] half to even gives an integer within 1/2 of it. *)
Lemma round_half_even_spec n p :
  let k := round_half_even (Qmake n p) in
  Z.abs (k * Zpos p - n) * 2 <= Zpos p /\
  (0 <= n -> 0 <= k) /\ (n <= 1000 * Zpos p -> k <= 1000).
Proof.
  unfold round_half_even; simpl Qnum; simpl Qden.
  pose proof (Z.div_mod n (Zpos p) ltac:(lia)) as Hdm.
  pose proof (Z.mod_pos_bound n (Zpos p) ltac:(lia)) as Hr.
  set (fl := n / Zpos p) in *; set (r := n mod Zpos p) in *.
  destruct (Z.ltb_spec (2 * r) (Zpos p));
  [|destruct (Z.ltb_spec (Zpos p) (2 * r)); [|destruct (Z.even fl)]];
  (split; [|split]); intros; nia.
Qed.

Lemma frac_digits k :
  0 <= k < 1000 ->
  repeat 48 (3 - List.length (z_digits k)) ++ z_digits k =
  [48 + k / 100; 48 + k / 10 mod 10; 48 + k mod 10].
Proof.
  intros Hk.
  set (P := fun k => str_eqb (repeat 48 (3 - List.length (z_digits k)) ++ z_digits k)
                             [48 + k / 100; 48 + k / 10 mod 10; 48 + k mod 10]).
  assert (HP : P k = true) by (apply (Z_range_check P 0 1000); [vm_compute; reflexivity|lia]).
  apply str_eqb_spec, HP.
Qed.

Lemma z_digits_0 : z_digits 0 = [48].
Proof. reflexivity. Qed.
Lemma z_digits_1 : z_digits 1 = [49].
Proof. reflexivity. Qed.

(** For a confidence in [0, 1], ["{:.3f}".format] writes d.ddd: a rounded
    thousandth count [n] in [0, 1000] within 0.0005 of the value. *)
Theorem format3_unit q :
  (0 <= q <= 1)%Q ->
  exists n, 0 <= n <= 1000 /\
    (Qabs (inject_Z n / 1000 - q) <= 1 # 2000)%Q /\
    format3 q = [48 + n / 1000; 46; 48 + n mod 1000 / 100; 48 + n mod 1000 / 10 mod 10;
                 48 + n mod 1000 mod 10].
Proof.
  destruct q as [qn qd]; intros [H0 H1].
  unfold Qle in H0, H1; simpl in H0, H1.
  assert (Habs : Qabs (qn # qd) = (qn # qd)) by (unfold Qabs; rewrite Z.abs_eq by lia; reflexivity).
  assert (Hx : (Qabs (qn # qd) * 1000)%Q = Qmake (qn * 1000) (qd * 1)) by (rewrite Habs; reflexivity).
  destruct (round_half_even_spec (qn * 1000) (qd * 1)) as [Hd [Hlo Hhi]].
  set (n := round_half_even (Qmake (qn * 1000) (qd * 1))) in *.
  rewrite Pos2Z.inj_mul in Hd, Hhi; simpl (Zpos 1) in Hd, Hhi.
  assert (Hn : 0 <= n <= 1000) by (split; [apply Hlo|apply Hhi]; lia).
  exists n; split; [exact Hn|split].
  - apply Qabs_Qle_condition; unfold Qle, Qminus, Qplus, Qopp, Qdiv, Qmult, Qinv, inject_Z; simpl.
    rewrite ?Pos2Z.inj_mul; simpl; split; nia.
  - unfold format3; rewrite Hx; fold n.
    assert (Hs : Qltb (qn # qd) 0 = false).
    { apply not_true_iff_false; rewrite Qltb_iff; unfold Qlt; simpl; lia. }
    rewrite Hs, frac_digits by (apply Z.mod_pos_bound; lia).
    destruct (Z.eq_dec (n / 1000) 0) as [E|E].
    + rewrite E, z_digits_0; reflexivity.
    + assert (E1 : n / 1000 = 1) by (pose proof (Z.div_pos n 1000); pose proof (Z.div_le_upper_bound n 1000 1); lia).
      rewrite E1, z_digits_1; reflexivity.
Qed.


Lemma pair_eqb_spec a b : pair_eqb a b = true <-> a = b.
Proof.
  destruct a as [a1 a2], b as [b1 b2]; unfold pair_eqb; simpl.
  rewrite andb_true_iff, !str_eqb_spec; split; [intros [-> ->]; reflexivity|].
  intros H; injection H; auto.
Qed.

Lemma incr_country_wf c0 f0 g cc : cc_wf cc -> cc_wf (incr_country c0 f0 g cc).
Proof.
  intros [Hnd Hin]; split; [apply (od_update_nodup str_eqb str_eqb_spec), Hnd|].
  intros c d Hcd; unfold incr_country in Hcd.
  destruct (od_update_in str_eqb str_eqb_spec _ _ _ _ _ Hcd) as [H|[_ [H|[d0 [H0 H]]]]].
  - exact (Hin _ _ H).
  - subst d; apply (od_update_nodup str_eqb str_eqb_spec); constructor.
  - subst d; apply (od_update_nodup str_eqb str_eqb_spec), (Hin _ _ H0).
Qed.

Lemma cc_lookup_incr c0 f0 g cc c f :
  cc_lookup c f (incr_country c0 f0 g cc) =
  if str_eqb c c0 && str_eqb f f0
  then Some (counter_incr g (match cc_lookup c0 f0 cc with Some x => x | None => [] end))
  else cc_lookup c f cc.
Proof.
  unfold cc_lookup, incr_country.
  rewrite (od_lookup_update str_eqb str_eqb_spec).
  destruct (str_eqb c c0) eqn:Ec; simpl; [|reflexivity].
  apply str_eqb_spec in Ec; subst c0.
  rewrite incr_global_lookup.
  destruct (str_eqb f f0) eqn:Ef; [apply str_eqb_spec in Ef; subst f0|].
  - destruct (od_lookup str_eqb c cc); reflexivity.
  - destruct (od_lookup str_eqb c cc); reflexivity.
Qed.

Lemma labels_for_country_snoc c f os o :
  labels_for_country c f (os ++ [o]) =
  labels_for_country c f os ++
  (let '(f', g, c') := o in if str_eqb f' f && str_eqb c' c then [g] else []).
Proof.
  unfold labels_for_country; rewrite filter_app, map_app; destruct o as [[f' g] c']; simpl.
  destruct (str_eqb f' f && str_eqb c' c); reflexivity.
Qed.

Lemma snd_count_obs st o :
  snd (count_obs st o) =
  let '(f, g, c) := o in match c with [] => snd st | _ => incr_country c f g (snd st) end.
Proof. destruct st as [cg cc], o as [[f g] c]; reflexivity. Qed.

Lemma fold_count_obs_country os (st : global_counts * country_counts) c f :
  cc_wf (snd st) -> c <> [] ->
  cc_wf (snd (fold_left count_obs os st)) /\
  cc_lookup c f (snd (fold_left count_obs os st)) =
  match cc_lookup c f (snd st), labels_for_country c f os with
  | None, [] => None
  | None, ls => Some (counter_of ls)
  | Some x, ls => Some (fold_left (fun x g => counter_incr g x) ls x)
  end.
Proof.
  intros Hwf0 Hc.
  induction os as [|o os IH] using rev_ind.
  - split; [exact Hwf0|]; cbn [fold_left labels_for_country filter map].
    destruct (cc_lookup c f (snd st)); reflexivity.
  - destruct IH as [Hwf IH].
    rewrite fold_left_app; simpl; rewrite snd_count_obs, labels_for_country_snoc.
    destruct o as [[f' g] c'].
    destruct c' as [|a c''].
    + split; [exact Hwf|].
      assert (Hb : str_eqb [] c = false).
      { destruct (str_eqb [] c) eqn:E; [apply str_eqb_spec in E; congruence|reflexivity]. }
      rewrite Hb, andb_false_r, app_nil_r; exact IH.
    + split; [apply incr_country_wf, Hwf|].
      rewrite cc_lookup_incr.
      destruct (str_eqb c (a :: c'') && str_eqb f f') eqn:E.
      * apply andb_true_iff in E; destruct E as [E1 E2].
        apply str_eqb_spec in E1, E2; subst c f'.
        rewrite (eqb_refl str_eqb str_eqb_spec (a :: c'')), (eqb_refl str_eqb str_eqb_spec f);
          simpl; rewrite IH.
        destruct (cc_lookup (a :: c'') f (snd st)) as [x|];
          destruct (labels_for_country (a :: c'') f os) as [|l0 ls] eqn:El; simpl;
          try reflexivity.
        -- rewrite fold_left_app; reflexivity.
        -- rewrite app_comm_cons, counter_of_snoc; reflexivity.
      * assert (E' : str_eqb f' f && str_eqb (a :: c'') c = false).
        { destruct (str_eqb f' f) eqn:E1, (str_eqb (a :: c'') c) eqn:E2; try reflexivity.
          apply str_eqb_spec in E1, E2; subst.
          rewrite (eqb_refl str_eqb str_eqb_spec), (eqb_refl str_eqb str_eqb_spec) in E.
          discriminate. }
        rewrite E', app_nil_r; exact IH.
Qed.

Lemma aggregate_country_lookup rows c f :
  c <> [] ->
  cc_wf (snd (aggregate rows)) /\
  cc_lookup c f (snd (aggregate rows)) =
  match labels_for_country c f (ref_observations rows) with
  | [] => None
  | ls => Some (counter_of ls)
  end.
Proof.
  intros Hc.
  assert (H0 : cc_wf (snd (([] : global_counts), ([] : country_counts))))
    by (split; [constructor|intros ? ? []]).
  destruct (fold_count_obs_country (ref_observations rows) ([], []) c f H0 Hc) as [Hwf H].
  split; [exact Hwf|]; unfold aggregate; rewrite H; reflexivity.
Qed.

Lemma aggregate_country_nil rows f : cc_lookup [] f (snd (aggregate rows)) = None.
Proof.
  unfold aggregate; generalize (ref_observations rows) as os.
  assert (H : forall os (st : global_counts * country_counts),
    od_lookup str_eqb [] (snd st) = None ->
    od_lookup str_eqb [] (snd (fold_left count_obs os st)) = None).
  { induction os as [|[[f' g] c'] os IH]; intros st Hst; simpl; [exact Hst|].
    apply IH; rewrite snd_count_obs; destruct c' as [|a c'']; [exact Hst|].
    unfold incr_country; rewrite (od_lookup_update str_eqb str_eqb_spec); exact Hst. }
  intros os; unfold cc_lookup; rewrite (H os ([], []) eq_refl); reflexivity.
Qed.

(** The inner loop over [d.items()] for one [country]. *)
Lemma build_country_inner_lookup c0 d m c f :
  NoDup (map fst d) ->
  od_lookup pair_eqb (c, f)
    (fold_left (fun m '(fname, ctr) =>
                  match entry_of ctr with
                  | None => m
                  | Some e => od_update pair_eqb (c0, fname) (fun _ => e) m
                  end) d m) =
  if str_eqb c c0 then
    match od_lookup str_eqb f d with
    | Some ctr => match entry_of ctr with
                  | Some e => Some e
                  | None => od_lookup pair_eqb (c, f) m
                  end
    | None => od_lookup pair_eqb (c, f) m
    end
  else od_lookup pair_eqb (c, f) m.
Proof.
  revert m; induction d as [|[f1 ctr] t IH]; intros m Hnd; simpl.
  { destruct (str_eqb c c0); reflexivity. }
  inversion Hnd as [|? ? Hnot Hnd']; subst.
  rewrite (IH _ Hnd').
  assert (Hupd : forall e, od_lookup pair_eqb (c, f) (od_update pair_eqb (c0, f1) (fun _ => e) m) =
                           if str_eqb c c0 && str_eqb f f1 then Some e
                           else od_lookup pair_eqb (c, f) m).
  { intros e; rewrite (od_lookup_update pair_eqb pair_eqb_spec); reflexivity. }
  destruct (str_eqb c c0) eqn:Ec; simpl.
  - destruct (str_eqb f f1) eqn:Ef.
    + apply str_eqb_spec in Ef; subst f1.
      destruct (od_lookup str_eqb f t) eqn:Et.
      { exfalso; apply Hnot.
        apply (in_map fst _ (f, c1)), (od_lookup_some_in str_eqb str_eqb_spec), Et. }
      destruct (entry_of ctr); [|reflexivity].
      rewrite Hupd; rewrite ?Ec, ?(eqb_refl str_eqb str_eqb_spec); reflexivity.
    + destruct (od_lookup str_eqb f t); [destruct (entry_of c1)|];
        destruct (entry_of ctr); try reflexivity; rewrite Hupd; rewrite ?Ec, ?Ef; reflexivity.
  - destruct (entry_of ctr); [|reflexivity]; rewrite Hupd; rewrite ?Ec; reflexivity.
Qed.

Lemma build_mapping_country_lookup cc c f :
  cc_wf cc ->
  od_lookup pair_eqb (c, f) (build_mapping_country cc) =
  match cc_lookup c f cc with Some ctr => entry_of ctr | None => None end.
Proof.
  intros [Hnd Hin]; unfold build_mapping_country, cc_lookup.
  assert (H : forall cc m, NoDup (map fst cc) -> (forall c d, In (c, d) cc -> NoDup (map fst d)) ->
    od_lookup pair_eqb (c, f)
      (fold_left (fun m '(country, d) =>
         fold_left (fun m '(fname, ctr) =>
                      match entry_of ctr with
                      | None => m
                      | Some e => od_update pair_eqb (country, fname) (fun _ => e) m
                      end) d m) cc m) =
    match od_lookup str_eqb c cc with
    | Some d => match od_lookup str_eqb f d with
                | Some ctr => match entry_of ctr with
                              | Some e => Some e
                              | None => od_lookup pair_eqb (c, f) m
                              end
                | None => od_lookup pair_eqb (c, f) m
                end
    | None => od_lookup pair_eqb (c, f) m
    end).
  { clear Hnd Hin cc; induction cc as [|[c0 d] t IH]; intros m Hnd Hin; simpl; [reflexivity|].
    inversion Hnd as [|? ? Hnot Hnd']; subst.
    rewrite (IH _ Hnd' (fun c1 d1 H => Hin c1 d1 (or_intror H))).
    rewrite (build_country_inner_lookup c0 d m c f (Hin c0 d (or_introl eq_refl))).
    destruct (str_eqb c c0) eqn:Ec.
    - apply str_eqb_spec in Ec; subst c0.
      destruct (od_lookup str_eqb c t) eqn:Et; [|reflexivity].
      exfalso; apply Hnot.
      apply (in_map fst _ (c, l)), (od_lookup_some_in str_eqb str_eqb_spec), Et.
    - reflexivity. }
  rewrite (H cc [] Hnd Hin).
  destruct (od_lookup str_eqb c cc); [destruct (od_lookup str_eqb f l); [destruct (entry_of c0)|]|];
    reflexivity.
Qed.

Lemma snd_mappings rows : snd (mappings rows) = build_mapping_country (snd (aggregate rows)).
Proof. unfold mappings; destruct (aggregate rows); reflexivity. Qed.

(** [mapping_country] has an entry for [(country, fname)] iff [country]
    is not empty and some reference row was counted for that pair; its
    total is the number of such rows. *)
Theorem mapping_country_total_counts rows country fname :
  let ls := labels_for_country country fname (ref_observations rows) in
  match od_lookup pair_eqb (country, fname) (snd (mappings rows)) with
  | None => country = [] \/ ls = []
  | Some (_, _, t) => country <> [] /\ ls <> [] /\ t = List.length ls
  end.
Proof.
  cbv zeta.
  destruct country as [|a c'].
  - rewrite snd_mappings, build_mapping_country_lookup.
    + rewrite aggregate_country_nil; left; reflexivity.
    + apply (aggregate_country_lookup rows [0] fname); discriminate.
  - destruct (aggregate_country_lookup rows (a :: c') fname ltac:(discriminate)) as [Hwf Hl].
    rewrite snd_mappings, (build_mapping_country_lookup _ _ _ Hwf), Hl.
    destruct (labels_for_country (a :: c') fname (ref_observations rows)) as [|g ls] eqn:E;
      [right; reflexivity|].
    destruct (entry_of_some (counter_of (g :: ls))) as [g' [c He]].
    { rewrite counter_total_of; discriminate. }
    rewrite He, counter_total_of; split; [discriminate|split; [discriminate|reflexivity]].
Qed.


(** With mappings built from any reference rows, every decision's
    confidence lies in [0, 1]. *)
Theorem decide_confidence_unit rows gg row :
  let '(_, c, _) := decide (fst (mappings rows)) (snd (mappings rows)) gg row in
  (0 <= c <= 1)%Q.
Proof.
  destruct (mappings_unit rows) as [H1 H2].
  exact (decide_unit _ _ gg row H1 H2).
Qed.

Lemma mapping_confidence_one_witness :
  (((2 # 3) * (7 # 10) == 1)%Q <->
   Forall (eq F) (labels_for (u "alex") (ref_observations ref_alex))) /\
  ((3 < MIN_COUNT_FOR_CONFIDENCE)%nat ->
   ((CONF_THRESHOLD <= (2 # 3) * (7 # 10))%Q <-> ((2 # 3) * (7 # 10) == 1)%Q)).
Proof.
  apply (mapping_confidence_one ref_alex (u "alex") F ((2 # 3) * (7 # 10))%Q 3%nat).
  vm_compute; reflexivity.
Defined.

Lemma format3_unit_witness :
  exists n, 0 <= n <= 1000 /\
    (Qabs (inject_Z n / 1000 - (7 # 15)) <= 1 # 2000)%Q /\
    format3 (7 # 15) = [48 + n / 1000; 46; 48 + n mod 1000 / 100; 48 + n mod 1000 / 10 mod 10;
                        48 + n mod 1000 mod 10].
Proof.
  apply (format3_unit (7 # 15)).
  split; vm_compute; discriminate.
Defined.
